(** * madtrees: the district loader of [map.js]

    A shallow embedding of the incremental data-loading code of [map.js]
    ([loadDistrict], [getVisibleDistricts], [loadVisibleDistricts] and the
    click handler that resolves a tree's attributes), with the properties
    the specification states about it.

    JavaScript values are the values [JSON.parse] can produce plus
    [undefined]; numbers are IEEE doubles ([PrimFloat.float]).  An [async]
    function is a resumption: a computation that runs on the shared page
    state until it finishes or suspends at an [await], and is resumed later
    on whatever the page state is then.  Leaflet, which [map.js] calls but
    does not contain, is an interface ([Leaflet]): the properties hold of
    every library behind it, and the examples run on a stand-in. *)

From Stdlib Require Import String Ascii Bool Arith ZArith Lia PrimFloat List.
From Stdlib Require FloatAxioms.
Import ListNotations.
Local Open Scope string_scope.
Local Open Scope list_scope.
Local Open Scope nat_scope.

Set Implicit Arguments.
Set Warnings "-register-all,-inexact-float".

(** ** JavaScript values *)

Module JS.

(** The members of an object are listed with their keys, each key once. *)
Inductive Value : Type :=
| Undefined
| Null
| Boolean (b : bool)
| Number (x : float)
| Str (s : string)
| Array (elems : list Value)
| Object (members : list (string * Value)).

(** ToBoolean. *)
Definition truthy (v : Value) : bool :=
  match v with
  | Undefined | Null => false
  | Boolean b => b
  | Number x => negb (PrimFloat.is_nan x || PrimFloat.is_zero x)
  | Str s => negb (String.eqb s "")
  | Array _ | Object _ => true
  end.

(** [a || b] *)
Definition or (a b : Value) : Value := if truthy a then a else b.

(** Errors that travel through [throw] and rejected promises: a
    [TypeError] of the language, the [Error] that [map.js] throws on a
    status that is not ok, what a rejected promise carries, and what a
    library throws. *)
Inductive Error : Type :=
| TypeError
| HttpError (status : Z)
| Rejection (reason : string)
| Thrown (message : string).

(** The outcome of evaluating something that may throw. *)
Inductive Completion (A : Type) : Type :=
| Normal (a : A)
| Abrupt (e : Error).
Arguments Normal {A} a.
Arguments Abrupt {A} e.

Fixpoint lookup (k : string) (members : list (string * Value)) : Value :=
  match members with
  | [] => Undefined
  | (k', v) :: rest => if String.eqb k k' then v else lookup k rest
  end.

(** [v.k] for the member names [map.js] reads ([geometry], [coordinates],
    [properties] and the attribute keys): none of them is defined on the
    prototype of a boolean, number, string or array, so only an object can
    hold one; reading a member of [undefined] or [null] throws. *)
Definition get (v : Value) (k : string) : Completion Value :=
  match v with
  | Undefined | Null => Abrupt TypeError
  | Object members => Normal (lookup k members)
  | _ => Normal Undefined
  end.

(** [v.k] where [v] is known not to be [undefined] or [null]. *)
Definition member (v : Value) (k : string) : Value :=
  match v with
  | Object members => lookup k members
  | _ => Undefined
  end.

(** Number of bytes of the UTF-8 sequence that starts with byte [c]. *)
Definition utf8_width (c : ascii) : nat :=
  let n := nat_of_ascii c in
  if n <? 192 then 1 else if n <? 224 then 2 else if n <? 240 then 3 else 4.

Fixpoint take_bytes (n : nat) (s : string) : string * string :=
  match n, s with
  | S n', String c rest =>
      let (h, t) := take_bytes n' rest in (String c h, t)
  | _, _ => (EmptyString, s)
  end.

(** The first code point of a string (held as UTF-8 text) and what follows. *)
Definition next_code_point (s : string) : option (string * string) :=
  match s with
  | EmptyString => None
  | String c _ => Some (take_bytes (utf8_width c) s)
  end.

(** [const [a, b] = v]: the first two values of the iteration of [v], with
    [undefined] for a missing one.  Arrays and strings are iterable; a
    string iterates by code point. *)
Definition destructure2 (v : Value) : Completion (Value * Value) :=
  match v with
  | Array elems => Normal (nth 0 elems Undefined, nth 1 elems Undefined)
  | Str s =>
      match next_code_point s with
      | None => Normal (Undefined, Undefined)
      | Some (a, rest) =>
          match next_code_point rest with
          | None => Normal (Str a, Undefined)
          | Some (b, _) => Normal (Str a, Str b)
          end
      end
  | _ => Abrupt TypeError
  end.

(** ToString, as a template literal applies it.  The decimal rendering of
    a double is left to the host, [number_to_string]. *)
Section ToString.

Variable number_to_string : float -> string.

Fixpoint to_string (v : Value) : string :=
  match v with
  | Undefined => "undefined"
  | Null => "null"
  | Boolean true => "true"
  | Boolean false => "false"
  | Number x => number_to_string x
  | Str s => s
  | Array elems =>
      (fix join (l : list Value) : string :=
         match l with
         | [] => ""
         | x :: rest =>
             let sx := match x with
                       | Undefined | Null => ""
                       | _ => to_string x
                       end in
             match rest with
             | [] => sx
             | _ :: _ => (sx ++ "," ++ join rest)%string
             end
         end) elems
  | Object _ => "[object Object]"
  end.

End ToString.

End JS.

Import JS.

(** A JavaScript [Set] of strings: its elements in insertion order. *)
Module StringSet.

Definition t : Type := list string.

Definition has (s : t) (x : string) : bool := existsb (String.eqb x) s.

Definition add (x : string) (s : t) : t := if has s x then s else s ++ [x].

Definition size (s : t) : nat := length s.

End StringSet.

(** ** Render points and the conversion of one feature *)

(** The circle marker [loadDistrict] creates for a feature: the position
    handed to [L.circleMarker] and the attribute object its click handler
    closes over.  The style options are the same for every marker. *)
Record Marker : Type := mkMarker {
  latlng : Value * Value;
  props : Value
}.

(** Leaflet and its marker cluster plugin are not part of [map.js].  The
    loader reaches them through three calls, all made inside the [try] of
    [loadDistrict].  [marker.on] registers the click handler and returns.
    The two others may throw, and whether they do is the library's to say:
    [L.circleMarker([lat, lng], options)] builds the marker or throws
    (Leaflet does on a position it cannot read as two numbers, such as the
    one an empty list of coordinates gives); [markers.addLayers(batch)]
    goes through the batch in order and throws at the first marker the
    cluster group cannot take (it does on a marker left without a
    position, such as the one [null] for a latitude gives).  A call that
    never returns freezes the page for good: no page state follows it, and
    none is given for it here. *)
Class Leaflet : Type := {
  (** [L.circleMarker([lat, lng], options)] *)
  circleMarker : Value -> Value -> Completion unit;
  (** What the cluster group does with one marker of a batch. *)
  addLayer : Marker -> Completion unit
}.

Section Conversion.

Context {L : Leaflet}.

Inductive Converted : Type :=
| Skipped
| Made (m : Marker)
| Raised (e : Error).

(** The guard of the loop body,
    [feature.geometry && feature.geometry.coordinates], as a value. *)
Definition geometry_guard (feature : Value) : Completion Value :=
  match get feature "geometry" with
  | Abrupt e => Abrupt e
  | Normal geometry =>
      if truthy geometry then get geometry "coordinates" else Normal geometry
  end.

(** The body of the loop of [loadDistrict] up to [districtMarkers.push].
    Past the guard [feature] and [feature.geometry] are objects, so the
    members read again there are read with [member]. *)
Definition convert_feature (feature : Value) : Converted :=
  match geometry_guard feature with
  | Abrupt e => Raised e
  | Normal g =>
      if truthy g then
        match destructure2 (member (member feature "geometry") "coordinates") with
        | Abrupt e => Raised e
        | Normal (lng, lat) =>
            let props := or (member feature "properties") (Object []) in
            match circleMarker lat lng with
            | Abrupt e => Raised e
            | Normal _ => Made {| latlng := (lat, lng); props := props |}
            end
        end
      else Skipped
  end.

(** The render points of a run of features, in source order. *)
Definition markers_of (features : list Value) : list Marker :=
  flat_map (fun f => match convert_feature f with
                     | Made m => [m]
                     | _ => []
                     end) features.

(** The cluster group takes the marker. *)
Definition accepted (m : Marker) : bool :=
  match addLayer m with Normal _ => true | Abrupt _ => false end.

(** The conversion of the feature throws: the feature is [null] or
    [undefined], its coordinates cannot be iterated, or [L.circleMarker]
    throws on its position. *)
Definition conversion_raises (feature : Value) : bool :=
  match convert_feature feature with Raised _ => true | _ => false end.

(** The feature makes the ingestion of its shard throw: in its
    conversion, or at the flush that hands its marker to the cluster
    group. *)
Definition raises (feature : Value) : bool :=
  match convert_feature feature with
  | Raised _ => true
  | Made m => negb (accepted m)
  | Skipped => false
  end.

Definition makes_point (feature : Value) : bool :=
  match convert_feature feature with Made _ => true | _ => false end.

End Conversion.

(** The geometry and its coordinates are both present (truthy). *)
Definition has_coordinates (feature : Value) : bool :=
  truthy (member feature "geometry")
  && truthy (member (member feature "geometry") "coordinates").

(** What the specification asks of a feature: a geometry whose coordinates
    are a pair. *)
Definition has_coordinate_pair (feature : Value) : bool :=
  match member (member feature "geometry") "coordinates" with
  | Array [_; _] => true
  | _ => false
  end.

(** ** The click handler: attribute resolution *)

Section Popup.

Variable number_to_string : float -> string.

Record TreeInfo : Type := mkTreeInfo {
  species : Value;
  commonName : Value;
  diameter : Value;
  height : Value;
  district : Value;
  neighborhood : Value
}.

(** The six constants the click handler computes.  [props] is truthy
    ([feature.properties || {}]), so reading its members cannot throw. *)
Definition tree_info (props : Value) : TreeInfo :=
  let p := member props in
  {| species :=
       or (or (or (p "sn") (p "species")) (p "Nombre científico"))
          (Str "Especie desconocida");
     commonName :=
       or (or (or (p "cn") (p "common_name")) (p "CODIGO_ESP")) (Str "");
     diameter :=
       if truthy (or (p "d") (p "diameter"))
       then Str (to_string number_to_string (or (p "d") (p "diameter")) ++ " cm")%string
       else Str "N/A";
     height :=
       if truthy (or (p "h") (p "height"))
       then Str (to_string number_to_string (or (p "h") (p "height")) ++ " m")%string
       else Str "N/A";
     district := or (or (p "dt") (p "NBRE_DTO")) (Str "");
     neighborhood := or (or (p "nb") (p "NBRE_BARRI")) (Str "") |}.

End Popup.

(** ** The page state *)

(** One entry of [districts_index.json], taken to be as
    [split-by-district.py] writes it: an object whose code, name and file
    name are strings. *)
Record ShardDescriptor : Type := mkShard {
  code : string;
  name : string;
  filename : string
}.

(** The parsed [districts_index.json].  Its [districts] are taken to be as
    the script writes them, a list of entries of the shape above:
    [loadVisibleDistricts] reads the list and the code of each entry
    outside any [try], and what it does with a list that is missing or
    holds something else, [null] say, is not covered.  The count of trees
    may be missing ([None]): the message [loadDistrictIndex] writes when
    the index is loaded reads it. *)
Record Catalog : Type := mkCatalog {
  total_districts : Z;
  total_trees : option Z;
  districts : list ShardDescriptor
}.

(** The parsed file of one district, taken to be a GeoJSON feature
    collection: [features] is an array, of values of any kind.  (On a body
    without [features] the first read of [data.features.length] throws
    inside the [try], as a body that does not parse does.) *)
Record FeatureCollection : Type := mkCollection {
  features : list Value
}.

(** [districtLayers[k] = v] *)
Fixpoint assign (k : string) (v : bool) (o : list (string * bool))
  : list (string * bool) :=
  match o with
  | [] => [(k, v)]
  | (k', v') :: rest =>
      if String.eqb k k' then (k, v) :: rest else (k', v') :: assign k v rest
  end.

(** The object [districtState]. *)
Record DistrictState : Type := mkDistrictState {
  index : option Catalog;
  loadedDistricts : StringSet.t;
  districtLayers : list (string * bool);
  isLoading : bool
}.

(** What the code does to its collaborators (the network, the marker
    cluster group [markers], the timer queue, the console, the progress
    text), and the insertions into [loadedDistricts], in the order they
    happen.  The elements of the page it writes to are taken to be
    there. *)
Inductive Event : Type :=
| ConsoleLoading (d : ShardDescriptor)
| Fetch (d : ShardDescriptor)
| AddLayers (batch : list Marker)
| SetTimeout0
| MarkLoaded (code : string)
| ConsoleLoaded (code : string) (count : nat)
| ConsoleError (code : string) (e : Error)
| Progress (loaded total : nat).

Record Bounds : Type := mkBounds {
  south : float; west : float; north : float; east : float
}.

(** Everything the loader reads or writes: [districtState], the viewport
    of the Leaflet map, and the history of its effects. *)
Record World : Type := mkWorld {
  districtState : DistrictState;
  mapBounds : Bounds;
  mapZoom : float;
  history : list Event
}.

Definition resident (w : World) (c : string) : bool :=
  StringSet.has (loadedDistricts (districtState w)) c.

Definition emit (e : Event) (w : World) : World :=
  {| districtState := districtState w;
     mapBounds := mapBounds w;
     mapZoom := mapZoom w;
     history := history w ++ [e] |}.

Definition emit_all (es : list Event) (w : World) : World :=
  {| districtState := districtState w;
     mapBounds := mapBounds w;
     mapZoom := mapZoom w;
     history := history w ++ es |}.

Definition with_state (f : DistrictState -> DistrictState) (w : World) : World :=
  {| districtState := f (districtState w);
     mapBounds := mapBounds w;
     mapZoom := mapZoom w;
     history := history w |}.

(** [districtState.districtLayers[c] = true] *)
Definition set_layer (c : string) (s : DistrictState) : DistrictState :=
  {| index := index s;
     loadedDistricts := loadedDistricts s;
     districtLayers := assign c true (districtLayers s);
     isLoading := isLoading s |}.

(** [districtState.loadedDistricts.add(c)] *)
Definition add_loaded (c : string) (s : DistrictState) : DistrictState :=
  {| index := index s;
     loadedDistricts := StringSet.add c (loadedDistricts s);
     districtLayers := districtLayers s;
     isLoading := isLoading s |}.

(** [districtState.isLoading = b] *)
Definition set_loading (b : bool) (s : DistrictState) : DistrictState :=
  {| index := index s;
     loadedDistricts := loadedDistricts s;
     districtLayers := districtLayers s;
     isLoading := b |}.

(** The batches handed to [markers.addLayers], and the render points handed
    to the cluster group that way. *)
Definition flushes (es : list Event) : list (list Marker) :=
  flat_map (fun e => match e with AddLayers b => [b] | _ => [] end) es.

Definition points (es : list Event) : list Marker := concat (flushes es).

Definition yields (es : list Event) : nat :=
  length (filter (fun e => match e with SetTimeout0 => true | _ => false end) es).

Definition fetched (es : list Event) : list ShardDescriptor :=
  flat_map (fun e => match e with Fetch d => [d] | _ => [] end) es.

(** ** Asynchronous functions as resumptions *)

Record Response : Type := mkResponse {
  url : string;
  ok : bool;
  status : Z
}.

(** What an [await] waits for. *)
Inductive Wait : Type :=
| AwaitFetch (url : string)
| AwaitJson (r : Response)
| AwaitTimeout.

(** What the host answers. *)
Definition Answer (wt : Wait) : Type :=
  match wt with
  | AwaitFetch _ => Completion Response
  | AwaitJson _ => Completion FeatureCollection
  | AwaitTimeout => unit
  end.

(** A run of an asynchronous function up to its end or its next [await]:
    the page state it leaves and, when suspended, how it goes on from the
    host's answer and the page state at that time. *)
Inductive Step (A : Type) : Type :=
| Done (result : Completion A) (w : World)
| Susp (wt : Wait) (w : World) (k : Answer wt -> World -> Step A).
Arguments Done {A} result w.
Arguments Susp {A} wt w k.

Definition Async (A : Type) : Type := World -> Step A.

Definition ret {A} (a : A) : Async A := fun w => Done (Normal a) w.

Definition throw {A} (e : Error) : Async A := fun w => Done (Abrupt e) w.

Fixpoint bind_step {A B} (x : Step A) (f : A -> Async B) : Step B :=
  match x with
  | Done (Normal a) w => f a w
  | Done (Abrupt e) w => Done (Abrupt e) w
  | Susp wt w k => Susp wt w (fun r w' => bind_step (k r w') f)
  end.

Definition bind {A B} (m : Async A) (f : A -> Async B) : Async B :=
  fun w => bind_step (m w) f.

(** [try { m } catch (error) { handler error }] *)
Fixpoint catch_step {A} (x : Step A) (handler : Error -> Async A) : Step A :=
  match x with
  | Done (Normal a) w => Done (Normal a) w
  | Done (Abrupt e) w => handler e w
  | Susp wt w k => Susp wt w (fun r w' => catch_step (k r w') handler)
  end.

Definition try_catch {A} (m : Async A) (handler : Error -> Async A) : Async A :=
  fun w => catch_step (m w) handler.

Definition read {A} (f : World -> A) : Async A := fun w => Done (Normal (f w)) w.

Definition modify (f : World -> World) : Async unit :=
  fun w => Done (Normal tt) (f w).

(** [await]: suspend, and go on with the host's answer. *)
Definition await (wt : Wait) : Async (Answer wt) :=
  fun w => Susp wt w (fun r w' => Done (Normal r) w').

(** Going on from a settled promise: its value, or its rejection thrown. *)
Definition settle {A} (c : Completion A) : Async A :=
  match c with
  | Normal a => ret a
  | Abrupt e => throw e
  end.

Declare Scope async_scope.
Delimit Scope async_scope with async.
Notation "x <- m ;; k" := (bind m (fun x => k))
  (at level 61, m at next level, right associativity) : async_scope.
Notation "m ;; k" := (bind m (fun _ => k))
  (at level 61, right associativity) : async_scope.
Local Open Scope async_scope.

(** ** The loader *)

Section Loader.

Context {L : Leaflet}.

(** [yieldToMain()], awaited: a zero-delay timer, then resumption. *)
Definition yieldToMain : Async unit :=
  modify (emit SetTimeout0) ;; await AwaitTimeout.

(** What the cluster group makes of a batch: it takes the markers in
    order and throws at the first it cannot take. *)
Fixpoint take_layers (batch : list Marker) : Completion unit :=
  match batch with
  | [] => Normal tt
  | m :: rest =>
      match addLayer m with
      | Abrupt e => Abrupt e
      | Normal _ => take_layers rest
      end
  end.

(** [markers.addLayers(batch)] *)
Definition addLayers (batch : list Marker) : Async unit :=
  modify (emit (AddLayers batch)) ;;
  settle (take_layers batch).

Definition shard_url (d : ShardDescriptor) : string :=
  ("./data/districts/" ++ filename d)%string.

(** [await fetch(url)] *)
Definition fetch (d : ShardDescriptor) : Async Response :=
  modify (emit (Fetch d)) ;;
  r <- await (AwaitFetch (shard_url d)) ;;
  settle r.

(** [await response.json()] *)
Definition json (response : Response) : Async FeatureCollection :=
  r <- await (AwaitJson response) ;;
  settle r.

Definition chunkSize : nat := 500.

(** The [for] loop of [loadDistrict] from index [i] on, [districtMarkers]
    holding [buffer]; it returns what is left in [districtMarkers]. *)
Fixpoint ingest (chunk : nat) (feats : list Value) (i : nat) (buffer : list Marker)
  : Async (list Marker) :=
  match feats with
  | [] => ret buffer
  | feature :: rest =>
      districtMarkers <-
        match convert_feature feature with
        | Skipped => ret buffer
        | Made marker => ret (buffer ++ [marker])
        | Raised e => throw e
        end ;;
      districtMarkers <-
        (if (0 <? i) && (i mod chunk =? 0)
         then addLayers districtMarkers ;; yieldToMain ;; ret []
         else ret districtMarkers) ;;
      ingest chunk rest (S i) districtMarkers
  end.

Definition loadDistrict (districtInfo : ShardDescriptor) : Async unit :=
  let districtCode := code districtInfo in
  loaded <- read (fun w => resident w districtCode) ;;
  if loaded then ret tt
  else
    modify (emit (ConsoleLoading districtInfo)) ;;
    try_catch
      (response <- fetch districtInfo ;;
       if negb (ok response) then throw (HttpError (status response))
       else
         data <- json response ;;
         districtMarkers <- ingest chunkSize (features data) 0 [] ;;
         (if 0 <? length districtMarkers
          then addLayers districtMarkers else ret tt) ;;
         modify (with_state (set_layer districtCode)) ;;
         modify (fun w => emit (MarkLoaded districtCode)
                            (with_state (add_loaded districtCode) w)) ;;
         modify (emit (ConsoleLoaded districtCode (length (features data)))))
      (fun error => modify (emit (ConsoleError districtCode error))).

Definition getVisibleDistricts (w : World) : list ShardDescriptor :=
  match index (districtState w) with
  | None => []
  | Some idx =>
      let bounds := mapBounds w in
      let zoom := mapZoom w in
      if PrimFloat.ltb zoom 11 then districts idx else districts idx
  end.

(** [districtState.index.districts.length] *)
Definition index_length : Async nat :=
  idx <- read (fun w => index (districtState w)) ;;
  match idx with
  | None => throw TypeError
  | Some c => ret (length (districts c))
  end.

(** The [for] loop of [loadVisibleDistricts] over what is left of
    [visibleDistricts].  The text written to [loadingProgress] is a
    function of the two counts it is given.  [await loadDistrict(district)]
    goes on in a microtask as soon as [loadDistrict] is done, before any
    event handler can run, so it is a plain sequencing and not a
    suspension of its own. *)
Fixpoint load_each (visibleDistricts : list ShardDescriptor) : Async unit :=
  match visibleDistricts with
  | [] => ret tt
  | district :: rest =>
      loaded <- read (fun w => resident w (code district)) ;;
      (if negb loaded then
         loadDistrict district ;;
         loaded <- read (fun w => StringSet.size (loadedDistricts (districtState w))) ;;
         total <- index_length ;;
         modify (emit (Progress loaded total)) ;;
         yieldToMain
       else ret tt) ;;
      load_each rest
  end.

Definition loadVisibleDistricts : Async unit :=
  loading <- read (fun w => isLoading (districtState w)) ;;
  if loading then ret tt
  else
    modify (with_state (set_loading true)) ;;
    visibleDistricts <- read getVisibleDistricts ;;
    load_each visibleDistricts ;;
    modify (with_state (set_loading false)).

(** ** Running to completion *)

(** The host: what it answers to an [await], given the page state at the
    suspension (whose history tells one request from the next). *)
Definition Host : Type := World -> forall wt : Wait, Answer wt.

(** The run of an asynchronous function when nothing else touches the page
    state while it is suspended. *)
Fixpoint run {A} (host : Host) (x : Step A) : Completion A * World :=
  match x with
  | Done r w => (r, w)
  | Susp wt w k => run host (k (host w wt) w)
  end.

(** ** The event loop *)

(** A call of [loadVisibleDistricts] suspended at an [await]. *)
Record Suspended : Type := mkSuspended {
  waiting : Wait;
  resume : Answer waiting -> World -> Step unit
}.

(** The page: its state and the load cycles in progress. *)
Record Page : Type := mkPage {
  world : World;
  cycles : list Suspended
}.

(** The page after a run of a load cycle, [others] being the other cycles
    in progress. *)
Definition after (x : Step unit) (others : list Suspended) : Page :=
  match x with
  | Done _ w => {| world := w; cycles := others |}
  | Susp wt w k =>
      {| world := w; cycles := others ++ [{| waiting := wt; resume := k |}] |}
  end.

Definition move_map (b : Bounds) (z : float) (w : World) : World :=
  {| districtState := districtState w;
     mapBounds := b;
     mapZoom := z;
     history := history w |}.

(** One turn of the event loop: the user moves the map; the map fires
    [moveend] or [zoomend] (or [initialize] makes its first call) and
    [loadVisibleDistricts] is called; a suspended load cycle is resumed
    with the host's answer. *)
Inductive turn : Page -> Page -> Prop :=
| turn_move : forall p b z,
    turn p {| world := move_map b z (world p); cycles := cycles p |}
| turn_call : forall p,
    turn p (after (loadVisibleDistricts (world p)) (cycles p))
| turn_resume : forall p before t later (r : Answer (waiting t)),
    cycles p = before ++ t :: later ->
    turn p (after (resume t r (world p)) (before ++ later)).

Inductive reachable (p0 : Page) : Page -> Prop :=
| reach_start : reachable p0 p0
| reach_turn : forall p q, reachable p0 p -> turn p q -> reachable p0 q.

(** The page when [initialize] has loaded the index: nothing resident, no
    load cycle in progress. *)
Definition initial_world (idx : Catalog) (b : Bounds) (z : float) : World :=
  {| districtState :=
       {| index := Some idx;
          loadedDistricts := [];
          districtLayers := [];
          isLoading := false |};
     mapBounds := b;
     mapZoom := z;
     history := [] |}.

Definition initial_page (idx : Catalog) (b : Bounds) (z : float) : Page :=
  {| world := initial_world idx b z; cycles := [] |}.

(** ** What a run leaves behind *)

(** The events of the loop of [loadDistrict] and what it returns or
    throws; the loop touches nothing but the history. *)
Fixpoint ingest_events (chunk : nat) (feats : list Value) (i : nat)
  (buffer : list Marker) : list Event * Completion (list Marker) :=
  match feats with
  | [] => ([], Normal buffer)
  | feature :: rest =>
      match convert_feature feature with
      | Raised e => ([], Abrupt e)
      | c =>
          let buffer' := match c with Made m => buffer ++ [m] | _ => buffer end in
          if (0 <? i) && (i mod chunk =? 0)
          then
            match take_layers buffer' with
            | Abrupt e => ([AddLayers buffer'], Abrupt e)
            | Normal _ =>
                let (es, r) := ingest_events chunk rest (S i) [] in
                (AddLayers buffer' :: SetTimeout0 :: es, r)
            end
          else ingest_events chunk rest (S i) buffer'
      end
  end.

(** What the host delivers for a shard asked for in page state [w]: the
    parsed collection, or the failure of the fetch ([fetch] rejected, a
    status that is not ok) or of the parse ([response.json()] rejected). *)
Definition shard_outcome (host : Host) (d : ShardDescriptor) (w : World)
  : Completion FeatureCollection :=
  let w1 := emit (Fetch d) (emit (ConsoleLoading d) w) in
  match host w1 (AwaitFetch (shard_url d)) with
  | Abrupt e => Abrupt e
  | Normal response =>
      if negb (ok response) then Abrupt (HttpError (status response))
      else host w1 (AwaitJson response)
  end.

Definition mark_loaded (c : string) (s : DistrictState) : DistrictState :=
  add_loaded c (set_layer c s).

(** The page state [loadDistrict] leaves. *)
Definition loadDistrict_result (host : Host) (d : ShardDescriptor) (w : World)
  : World :=
  if resident w (code d) then w
  else
    match shard_outcome host d w with
    | Abrupt e =>
        emit_all [ConsoleLoading d; Fetch d; ConsoleError (code d) e] w
    | Normal data =>
        match ingest_events chunkSize (features data) 0 [] with
        | (es, Abrupt e) =>
            emit_all ([ConsoleLoading d; Fetch d] ++ es
                      ++ [ConsoleError (code d) e]) w
        | (es, Normal remaining) =>
            match take_layers remaining with
            | Abrupt e =>
                emit_all ([ConsoleLoading d; Fetch d] ++ es
                          ++ [AddLayers remaining; ConsoleError (code d) e]) w
            | Normal _ =>
                emit_all ([ConsoleLoading d; Fetch d] ++ es
                          ++ (if 0 <? length remaining
                              then [AddLayers remaining] else [])
                          ++ [MarkLoaded (code d);
                              ConsoleLoaded (code d) (length (features data))])
                         (with_state (mark_loaded (code d)) w)
            end
        end
    end.

End Loader.

Unset Implicit Arguments.

(** ** Derived notions *)

Section Derived.

Context {L : Leaflet}.

Definition coordinates_of (feature : Value) : Value :=
  member (member feature "geometry") "coordinates".

(** The loop flushes at the indices that are positive multiples of [B]. *)
Definition flush_at (B i : nat) : bool := (0 <? i) && (i mod B =? 0).

(** The events of a shard loaded in full. *)
Definition loaded_events (d : ShardDescriptor) (data : FeatureCollection)
  (es : list Event) (remaining : list Marker) : list Event :=
  [ConsoleLoading d; Fetch d] ++ es
  ++ (if 0 <? length remaining then [AddLayers remaining] else [])
  ++ [MarkLoaded (code d); ConsoleLoaded (code d) (length (features data))].

(** The page state after the progress report and the yield that follow a
    shard. *)
Definition report (total : nat) (w : World) : World :=
  emit SetTimeout0
    (emit (Progress (StringSet.size (loadedDistricts (districtState w))) total) w).

(** The page state the loop of [loadVisibleDistricts] leaves. *)
Fixpoint load_each_result (host : Host) (total : nat)
  (ds : list ShardDescriptor) (w : World) : World :=
  match ds with
  | [] => w
  | d :: rest =>
      if resident w (code d) then load_each_result host total rest w
      else load_each_result host total rest
             (report total (loadDistrict_result host d w))
  end.

(** The page state [loadVisibleDistricts] leaves. *)
Definition cycle_result (host : Host) (w : World) : World :=
  if isLoading (districtState w) then w
  else
    let w1 := with_state (set_loading true) w in
    with_state (set_loading false)
      (load_each_result host
         (match index (districtState w) with
          | Some idx => length (districts idx)
          | None => 0
          end)
         (getVisibleDistricts w1) w1).

Definition flag_up (w : World) : Prop := isLoading (districtState w) = true.

(** A run leaves the flag up at each of its suspensions, provided the flag
    is up whenever it is resumed, and ends in a state that satisfies [Q]. *)
Fixpoint sustains {A} (Q : World -> Prop) (x : Step A) : Prop :=
  match x with
  | Done _ w => Q w
  | Susp _ w k => flag_up w /\ forall r w', flag_up w' -> sustains Q (k r w')
  end.

(** The invariant of the event loop: no load cycle is in progress, or one
    is, the flag is up, and the cycle keeps the flag up for as long as it
    is suspended. *)
Definition page_ok (p : Page) : Prop :=
  cycles p = []
  \/ (flag_up (world p)
      /\ exists t, cycles p = [t]
                   /\ forall r w', flag_up w' ->
                                   sustains (fun _ => True) (resume t r w')).




(** ** Fixtures *)

(** A stand-in for the library in the examples.  It takes a position that
    is plainly one, two numbers of which the first is a latitude between
    -90 and 90 and the second a longitude between -180 and 180, as Leaflet
    does; it throws on every other position, of which Leaflet takes some;
    its cluster group takes every marker.  The examples hand it positions
    of the first kind only. *)
Definition on_the_globe (lat lng : Value) : bool :=
  match lat, lng with
  | Number y, Number x =>
      PrimFloat.leb (-90) y && PrimFloat.leb y 90
      && PrimFloat.leb (-180) x && PrimFloat.leb x 180
  | _, _ => false
  end.

Definition plain_leaflet : Leaflet :=
  {| circleMarker := fun lat lng =>
       if on_the_globe lat lng then Normal tt
       else Abrupt (Thrown "Invalid LatLng object");
     addLayer := fun _ => Normal tt |}.

(** Another stand-in, for one example: a library that builds a marker on
    any position, and whose cluster group throws on a marker whose
    latitude is not a number. *)
Definition picky_cluster : Leaflet :=
  {| circleMarker := fun _ _ => Normal tt;
     addLayer := fun m =>
       match fst (latlng m) with
       | Number _ => Normal tt
       | _ => Abrupt TypeError
       end |}.

(** A host that serves a static site: for each URL a status and, when the
    body parses, the collection it holds. *)
Definition serve (site : string -> Z * option FeatureCollection) : Host :=
  fun _ wt =>
    match wt return Answer wt with
    | AwaitFetch u =>
        let st := fst (site u) in
        Normal {| url := u; ok := (200 <=? st)%Z && (st <=? 299)%Z; status := st |}
    | AwaitJson r =>
        match snd (site (url r)) with
        | Some data => Normal data
        | None => Abrupt (Rejection "SyntaxError")
        end
    | AwaitTimeout => tt
    end.

Definition tree (lng lat : float) (properties : list (string * Value)) : Value :=
  Object [("type", Str "Feature");
          ("geometry", Object [("type", Str "Point");
                               ("coordinates", Array [Number lng; Number lat])]);
          ("properties", Object properties)].

Definition madrid_tree : Value :=
  Object [("type", Str "Feature");
          ("geometry", Object [("type", Str "Point");
                               ("coordinates", Array [Number (-3.70)%float;
                                                      Number 40.41%float])])].

Definition plane_tree : Value :=
  tree (-3.6883)%float 40.4153%float
       [("sn", Str "Platanus x hybrida"); ("d", Number 45%float)].

(** A feature without geometry. *)
Definition no_geometry : Value :=
  Object [("type", Str "Feature"); ("properties", Object [])].

(** A feature whose position carries an altitude. *)
Definition tree_with_altitude : Value :=
  Object [("type", Str "Feature");
          ("geometry", Object [("type", Str "Point");
                               ("coordinates", Array [Number (-3.70)%float;
                                                      Number 40.41%float;
                                                      Number 667%float])])].

(** A feature whose list of coordinates is empty. *)
Definition empty_coordinates : Value :=
  Object [("type", Str "Feature");
          ("geometry", Object [("type", Str "Point");
                               ("coordinates", Array [])])].

(** A feature whose latitude is [null]. *)
Definition null_latitude : Value :=
  Object [("type", Str "Feature");
          ("geometry", Object [("type", Str "Point");
                               ("coordinates", Array [Number (-3.70)%float;
                                                      Null])])].

(** A feature whose coordinates are not a list. *)
Definition scalar_coordinates : Value :=
  Object [("type", Str "Feature");
          ("geometry", Object [("type", Str "Point");
                               ("coordinates", Number 7%float)])].

Definition retiro : ShardDescriptor :=
  {| code := "03"; name := "RETIRO"; filename := "district_03.json" |}.

Definition centro : ShardDescriptor :=
  {| code := "01"; name := "CENTRO"; filename := "district_01.json" |}.

Definition two_districts : Catalog :=
  {| total_districts := 2; total_trees := Some 8%Z;
     districts := [centro; retiro] |}.

Definition madrid : Bounds :=
  {| south := 40.31%float; west := (-3.89)%float;
     north := 40.64%float; east := (-3.52)%float |}.

Definition start : World := initial_world two_districts madrid 12%float.

(** A site whose only file is that of Retiro. *)
Definition retiro_site (feats : list Value) : string -> Z * option FeatureCollection :=
  fun u =>
    if String.eqb u "./data/districts/district_03.json"
    then (200%Z, Some {| features := feats |})
    else (404%Z, None).

(** A site where the file of Centro answers 500 and that of Retiro holds
    five trees. *)
Definition centro_down : string -> Z * option FeatureCollection :=
  fun u =>
    if String.eqb u "./data/districts/district_01.json" then (500%Z, None)
    else if String.eqb u "./data/districts/district_03.json"
         then (200%Z, Some {| features := repeat plane_tree 5 |})
         else (404%Z, None).

(** ** Invariants of the loader *)

(** A run leaves [I] in place at each of its suspensions, provided [I]
    holds whenever it is resumed, and ends in a state that satisfies [Q]. *)
Fixpoint upholds {A} (I Q : World -> Prop) (x : Step A) : Prop :=
  match x with
  | Done _ w => Q w
  | Susp _ w k => I w /\ forall r w', I w' -> upholds I Q (k r w')
  end.

(** The codes of the catalog. *)
Definition codes (idx : Catalog) : list string := map code (districts idx).

(** What the loader keeps true of the page state, [idx] being the catalog
    [initialize] loaded: the index is [idx]; the resident codes are codes
    of the catalog, each held once; every progress report written so far
    gives a count of resident shards that is at most the total, and the
    number of entries of the catalog for total. *)
Definition settled (idx : Catalog) (w : World) : Prop :=
  index (districtState w) = Some idx
  /\ NoDup (loadedDistricts (districtState w))
  /\ incl (loadedDistricts (districtState w)) (codes idx)
  /\ forall l t, In (Progress l t) (history w) ->
                 l <= t /\ t = length (districts idx).

(** The invariant of the event loop that carries [settled]. *)
Definition page_sound (idx : Catalog) (p : Page) : Prop :=
  settled idx (world p)
  /\ (cycles p = []
      \/ (flag_up (world p)
          /\ exists t,
               cycles p = [t]
               /\ forall r w',
                    flag_up w' /\ settled idx w' ->
                    upholds (fun w => flag_up w /\ settled idx w) (settled idx)
                            (resume t r w'))).

(** The shards of [ds] that are not resident in [w]. *)
Definition missing (w : World) (ds : list ShardDescriptor) : list ShardDescriptor :=
  filter (fun d => negb (resident w (code d))) ds.

(** The host serves the collection of every shard of [ds], whenever it is
    asked, and no feature of it raises. *)
Definition serves_all (host : Host) (ds : list ShardDescriptor) : Prop :=
  forall d w, In d ds ->
    exists data, shard_outcome host d w = Normal data
                 /\ existsb raises (features data) = false.

Definition is_error (e : Event) : bool :=
  match e with ConsoleError _ _ => true | _ => false end.

Definition is_progress (e : Event) : bool :=
  match e with Progress _ _ => true | _ => false end.

(** One turn of the event loop when the host alone acts: it answers the
    load cycle in progress, and when there is none [loadVisibleDistricts]
    is called. *)
Definition host_turn (host : Host) (p : Page) : Page :=
  match cycles p with
  | t :: later => after (resume t (host (world p) (waiting t)) (world p)) later
  | [] => after (loadVisibleDistricts (world p)) []
  end.

(** A run leaves [I] in place at each of its suspensions, provided [I]
    holds whenever it is resumed, and ends with a result and in a state
    that satisfy [Q]. *)
Fixpoint ensures {A} (I : World -> Prop) (Q : Completion A -> World -> Prop)
  (x : Step A) : Prop :=
  match x with
  | Done r w => Q r w
  | Susp _ w k => I w /\ forall r w', I w' -> ensures I Q (k r w')
  end.

(** The page state between two load cycles, and the end of a load cycle. *)
Definition at_rest (idx : Catalog) (w : World) : Prop :=
  settled idx w /\ isLoading (districtState w) = false.

Definition fulfilled (idx : Catalog) (r : Completion unit) (w : World) : Prop :=
  at_rest idx w /\ r = Normal tt.

(** The invariant of the event loop that ties the flag to the load cycle
    in progress. *)
Definition page_live (idx : Catalog) (p : Page) : Prop :=
  (cycles p = [] /\ at_rest idx (world p))
  \/ (flag_up (world p) /\ settled idx (world p)
      /\ exists t,
           cycles p = [t]
           /\ forall r w',
                flag_up w' /\ settled idx w' ->
                ensures (fun w => flag_up w /\ settled idx w) (fulfilled idx)
                        (resume t r w')).


End Derived.

(** ** The marker cluster group *)

Module Cluster.

(** The computation of [sizeClass] in [iconCreateFunction], [count] being
    what [cluster.getChildCount()] returns, the number of markers of the
    cluster.  The label of the icon, whose digits come from [toFixed], is
    not modelled. *)
Definition sizeClass (count : Z) : string :=
  if (count >? 5000)%Z then "large"
  else if (count >? 1000)%Z then "large"
  else if (count >? 100)%Z then "medium"
  else "small".

(** The [className] of the icon. *)
Definition className (count : Z) : string :=
  ("marker-cluster marker-cluster-" ++ sizeClass count)%string.

(** The classes by size. *)
Definition rank (class : string) : nat :=
  if String.eqb class "large" then 2
  else if String.eqb class "medium" then 1
  else 0.

(** The option [maxClusterRadius]. *)
Definition maxClusterRadius (zoom : float) : Z :=
  if PrimFloat.ltb zoom 13 then 120%Z
  else if PrimFloat.ltb zoom 15 then 80%Z
  else 50%Z.

End Cluster.

(** ** The popup of a tree *)

(** [a === b] for two values read from different members of a parsed
    object: primitive values are compared by value, and two arrays or
    objects are never the same object. *)
Definition strict_equal (a b : Value) : bool :=
  match a, b with
  | Undefined, Undefined => true
  | Null, Null => true
  | Boolean x, Boolean y => Bool.eqb x y
  | Number x, Number y => PrimFloat.eqb x y
  | Str x, Str y => String.eqb x y
  | _, _ => false
  end.

(** The double quote, as a string. *)
Definition dq : string := String "034"%char EmptyString.

Section PopupContent.

Variable number_to_string : float -> string.

(** The text the click handler builds from the six resolved values and
    hands to [marker.bindPopup]. *)
Definition popup_of (t : TreeInfo) : string :=
  let show := to_string number_to_string in
  let popupContent := ("<div class=" ++ dq ++ "tree-info" ++ dq ++ ">")%string in
  let popupContent :=
    (popupContent ++ "<strong>🌳 " ++ show (species t) ++ "</strong><br>")%string in
  let popupContent :=
    if truthy (commonName t) && negb (strict_equal (commonName t) (species t))
    then (popupContent ++ "<em>" ++ show (commonName t) ++ "</em><br>")%string
    else popupContent in
  let popupContent := (popupContent ++ "<br>")%string in
  let popupContent :=
    (popupContent ++ "<strong>Diámetro:</strong> " ++ show (diameter t) ++ "<br>")%string in
  let popupContent :=
    (popupContent ++ "<strong>Altura:</strong> " ++ show (height t))%string in
  let popupContent :=
    if truthy (district t)
    then (popupContent ++ "<br><br><strong>Distrito:</strong> "
                       ++ show (district t))%string
    else popupContent in
  let popupContent :=
    if truthy (neighborhood t)
    then (popupContent ++ "<br><strong>Barrio:</strong> "
                       ++ show (neighborhood t))%string
    else popupContent in
  (popupContent ++ "</div>")%string.

(** The popup of a marker, from the attributes its click handler closes
    over. *)
Definition popupContent (props : Value) : string :=
  popup_of (tree_info number_to_string props).

End PopupContent.

(** The keys the click handler probes. *)
Definition attribute_keys : list string :=
  ["sn"; "species"; "Nombre científico"; "cn"; "common_name"; "CODIGO_ESP";
   "d"; "diameter"; "h"; "height"; "dt"; "NBRE_DTO"; "nb"; "NBRE_BARRI"].

(** ** The information button *)

Module Info.

(** A click that reaches the listeners of [map.js], by where its target
    lies: [infoButton.contains(e.target)] and
    [infoPopup.contains(e.target)]. *)
Record Click : Type := mkClick {
  inButton : bool;
  inPopup : bool
}.

(** The class [show] of [infoPopup] after a click.  The listener of the
    button runs when the click passes through the button and stops its
    propagation, so that the listener of the document runs for the other
    clicks only. *)
Definition click (c : Click) (shown : bool) : bool :=
  if inButton c then negb shown
  else if negb (inButton c) && negb (inPopup c) then false
  else shown.

Definition clicks (cs : list Click) (shown : bool) : bool :=
  fold_left (fun s c => click c s) cs shown.

Definition on_button : Click := {| inButton := true; inPopup := false |}.
Definition in_popup : Click := {| inButton := false; inPopup := true |}.
Definition elsewhere : Click := {| inButton := false; inPopup := false |}.

End Info.

(** ** The performance indicator *)

Module Indicator.

(** The state [setupPerformanceMonitoring] works on: the class [show] of
    [performanceIndicator], the count written to its text, the variable
    [hideTimeout], and the timers set to hide the indicator that have
    neither fired nor been cleared, with the identifier the browser will
    give to the next timer. *)
Record State : Type := mkState {
  shown : bool;
  text : option Z;
  hideTimeout : option nat;
  pending : list nat;
  next_id : nat
}.

Definition remove_id (id : nat) (l : list nat) : list nat :=
  filter (fun x => negb (x =? id)) l.

(** [clearTimeout(hideTimeout)] *)
Definition clearTimeout (h : option nat) (l : list nat) : list nat :=
  match h with
  | Some id => remove_id id l
  | None => l
  end.

(** [updatePerformanceIndicator()], [visibleMarkers] being the count it
    reads from the cluster group and [hasText] telling whether the element
    for the text exists. *)
Definition update (hasText : bool) (visibleMarkers : Z) (s : State) : State :=
  {| shown := true;
     text := if hasText then Some visibleMarkers else text s;
     hideTimeout := Some (next_id s);
     pending := clearTimeout (hideTimeout s) (pending s) ++ [next_id s];
     next_id := S (next_id s) |}.

(** The timer [id] fires: the callback removes the class [show]. *)
Definition fire (id : nat) (s : State) : State :=
  if existsb (Nat.eqb id) (pending s)
  then {| shown := false;
          text := text s;
          hideTimeout := hideTimeout s;
          pending := remove_id id (pending s);
          next_id := next_id s |}
  else s.

Inductive Event : Type :=
| Update (hasText : bool) (visibleMarkers : Z)
| Fire (id : nat).

Definition step (s : State) (e : Event) : State :=
  match e with
  | Update hasText n => update hasText n s
  | Fire id => fire id s
  end.

(** The state when [setupPerformanceMonitoring] has run. *)
Definition initial (shown0 : bool) : State :=
  {| shown := shown0; text := None; hideTimeout := None;
     pending := []; next_id := 0 |}.

End Indicator.

(** The popup of a tree of which nothing is known. *)
Definition bare_popup : string :=
  ("<div class=" ++ dq ++ "tree-info" ++ dq ++ ">"
   ++ "<strong>🌳 Especie desconocida</strong><br><br>"
   ++ "<strong>Diámetro:</strong> N/A<br><strong>Altura:</strong> N/A</div>")%string.

Definition is_update (e : Indicator.Event) : bool :=
  match e with Indicator.Update _ _ => true | _ => false end.

Definition indicator_after (shown0 : bool) (es : list Indicator.Event)
  : Indicator.State :=
  fold_left Indicator.step es (Indicator.initial shown0).

(** ** The start of the page *)

Section Start.

Context {L : Leaflet}.

(** What the code does to the page around the map, in the order it
    happens: the loading overlay, the error banners, the timers it sets,
    the listeners it registers, the console. *)
Inductive TimerAction : Type :=
| RemoveError (message : string)
| HideOverlay
| UpdateIndicator.

Inductive UiEvent : Type :=
| MarkersAdded
| LoadingText (text : string)
| ProgressText (text : string)
| IndexFetch (url : string)
| ConsoleIndexLoaded (total_districts total_trees : Z)
| ConsoleIndexError (e : Error)
| OverlayHidden
| ErrorShown (message : string)
| SetTimeout (action : TimerAction) (ms : Z)
| Listening
| IndicatorListening
| ConsoleReady
| ConsoleInitialLoad (loaded : nat).

(** [showError(message)] *)
Definition showError (message : string) : list UiEvent :=
  [OverlayHidden; ErrorShown message; SetTimeout (RemoveError message) 5000].

(** [hideLoading()] *)
Definition hideLoading : list UiEvent := [SetTimeout HideOverlay 500].

(** [setupPerformanceMonitoring()], [hasIndicator] telling whether the
    element [performanceIndicator] exists. *)
Definition setupPerformanceMonitoring (hasIndicator : bool) : list UiEvent :=
  if hasIndicator then [IndicatorListening; SetTimeout UpdateIndicator 1000]
  else [].

(** What the host answers to the two [await]s of [loadDistrictIndex]. *)
Record IndexAnswers : Type := mkIndexAnswers {
  index_fetch : Completion Response;
  index_json : Completion Catalog
}.

Definition index_url : string := "./data/districts/districts_index.json".

(** What the two [await]s of [loadDistrictIndex] deliver: the parsed
    index, or the failure of the fetch ([fetch] rejected, a status that is
    not ok) or of the parse. *)
Definition index_delivery (a : IndexAnswers) : Completion Catalog :=
  match index_fetch a with
  | Abrupt e => Abrupt e
  | Normal response =>
      if negb (ok response) then Abrupt (HttpError (status response))
      else index_json a
  end.

(** The message written when the index is loaded.  It calls
    [toLocaleString] on the count of trees, which throws when there is no
    count. *)
Definition index_message (idx : Catalog) : Completion UiEvent :=
  match total_trees idx with
  | Some n => Normal (ConsoleIndexLoaded (total_districts idx) n)
  | None => Abrupt TypeError
  end.

(** [districtState.index = idx] *)
Definition set_index (idx : Catalog) (s : DistrictState) : DistrictState :=
  {| index := Some idx;
     loadedDistricts := loadedDistricts s;
     districtLayers := districtLayers s;
     isLoading := isLoading s |}.

(** [loadDistrictIndex()], run from its call to its return: it is called
    by [initialize] before any listener is registered, so nothing else
    touches [districtState] while it waits.  It gives what it returns, the
    [districtState] it leaves and what it did to the page. *)
Definition loadDistrictIndex (a : IndexAnswers) (s : DistrictState)
  : bool * DistrictState * list UiEvent :=
  match index_delivery a with
  | Normal idx =>
      match index_message idx with
      | Normal message =>
          (true, set_index idx s, [IndexFetch index_url; message])
      | Abrupt e =>
          (false, set_index idx s,
           [IndexFetch index_url; ConsoleIndexError e]
           ++ showError "No se pudo cargar el índice de distritos")
      end
  | Abrupt e =>
      (false, s,
       [IndexFetch index_url; ConsoleIndexError e]
       ++ showError "No se pudo cargar el índice de distritos")
  end.

(** How the [try] block of [loadDistrictIndex] ends: with the index it
    has loaded, or with what was thrown. *)
Definition index_outcome (a : IndexAnswers) : Completion Catalog :=
  match index_delivery a with
  | Normal idx =>
      match index_message idx with
      | Normal _ => Normal idx
      | Abrupt e => Abrupt e
      end
  | Abrupt e => Abrupt e
  end.

(** The page with its surroundings: the load cycles in progress, the one
    started by [initialize] marked; whether the listener of [moveend] and
    [zoomend] is registered; what was done to the page. *)
Record Session : Type := mkSession {
  sworld : World;
  running : list (bool * Suspended);
  listening : bool;
  ui : list UiEvent
}.

Definition page_of (s : Session) : Page :=
  {| world := sworld s; cycles := map snd (running s) |}.

(** The callback [initialize] attaches with [then] to its call of
    [loadVisibleDistricts]. *)
Definition then_callback (w : World) : list UiEvent :=
  hideLoading
  ++ [ConsoleInitialLoad (StringSet.size (loadedDistricts (districtState w)))].

(** The session after a run of a load cycle; when the cycle of
    [initialize] is fulfilled its callback runs. *)
Definition settle_cycle (first : bool) (x : Step unit)
  (others : list (bool * Suspended)) (base : Session) : Session :=
  match x with
  | Done r w =>
      {| sworld := w;
         running := others;
         listening := listening base;
         ui := ui base
               ++ (if first
                   then match r with
                        | Normal _ => then_callback w
                        | Abrupt _ => []
                        end
                   else []) |}
  | Susp wt w k =>
      {| sworld := w;
         running := others ++ [(first, {| waiting := wt; resume := k |})];
         listening := listening base;
         ui := ui base |}
  end.

(** The page state when the script starts. *)
Definition fresh_world (b : Bounds) (z : float) : World :=
  {| districtState :=
       {| index := None;
          loadedDistricts := [];
          districtLayers := [];
          isLoading := false |};
     mapBounds := b;
     mapZoom := z;
     history := [] |}.

(** [initialize()], up to its return and the microtasks that follow it. *)
Definition initialize (hasIndicator : bool) (a : IndexAnswers)
  (b : Bounds) (z : float) : Session :=
  let w0 := fresh_world b z in
  let ui0 := [MarkersAdded; LoadingText "Cargando árboles...";
              ProgressText "Preparando datos..."] in
  let '(success, s1, ui1) := loadDistrictIndex a (districtState w0) in
  let w1 := with_state (fun _ => s1) w0 in
  if negb success
  then {| sworld := w1;
          running := [];
          listening := false;
          ui := ui0 ++ ui1 ++ showError "No se pudo inicializar el mapa"
                ++ hideLoading |}
  else
    settle_cycle true (loadVisibleDistricts w1) []
      {| sworld := w1;
         running := [];
         listening := true;
         ui := ui0 ++ ui1 ++ [Listening]
               ++ setupPerformanceMonitoring hasIndicator ++ [ConsoleReady] |}.

Definition moved (b : Bounds) (z : float) (s : Session) : Session :=
  {| sworld := move_map b z (sworld s);
     running := running s;
     listening := listening s;
     ui := ui s |}.

(** One turn of the event loop of the session: the user moves the map;
    [moveend] or [zoomend] fires, which calls [loadVisibleDistricts] when
    the listener is registered; a suspended load cycle is resumed. *)
Inductive session_turn : Session -> Session -> Prop :=
| session_move : forall s b z, session_turn s (moved b z s)
| session_moveend : forall s,
    session_turn s
      (if listening s
       then settle_cycle false (loadVisibleDistricts (sworld s)) (running s) s
       else s)
| session_resume : forall s before first t later (r : Answer (waiting t)),
    running s = before ++ (first, t) :: later ->
    session_turn s
      (settle_cycle first (resume t r (sworld s)) (before ++ later) s).

Inductive session_reachable (s0 : Session) : Session -> Prop :=
| session_start : session_reachable s0 s0
| session_next : forall s s',
    session_reachable s0 s -> session_turn s s' -> session_reachable s0 s'.

Definition is_overlay_timer (e : UiEvent) : bool :=
  match e with SetTimeout HideOverlay _ => true | _ => false end.

Definition is_banner (e : UiEvent) : bool :=
  match e with ErrorShown _ => true | _ => false end.

(** The load cycles in progress that [initialize] started. *)
Definition first_cycles (s : Session) : list (bool * Suspended) :=
  filter fst (running s).

(** An index that answers 500. *)
Definition server_error : IndexAnswers :=
  {| index_fetch := Normal {| url := index_url; ok := false; status := 500 |};
     index_json := Abrupt (Rejection "SyntaxError") |}.

(** An index that is served. *)
Definition index_served (idx : Catalog) : IndexAnswers :=
  {| index_fetch := Normal {| url := index_url; ok := true; status := 200 |};
     index_json := Normal idx |}.

(** The catalog of the two districts, its count of trees left out. *)
Definition two_districts_uncounted : Catalog :=
  {| total_districts := 2; total_trees := None;
     districts := [centro; retiro] |}.

End Start.

(** * Properties *)

Section Properties.

Context {L : Leaflet}.

(** ** Lemmas on runs *)

Lemma run_bind_step {A B} (host : Host) (x : Step A) (f : A -> Async B) :
  run host (bind_step x f)
  = match run host x with
    | (Normal a, w) => run host (f a w)
    | (Abrupt e, w) => (Abrupt e, w)
    end.
Proof.
  induction x as [[a|e] w | wt w k IH]; simpl; auto.
Qed.

Lemma run_bind {A B} (host : Host) (m : Async A) (f : A -> Async B) (w : World) :
  run host (bind m f w)
  = match run host (m w) with
    | (Normal a, w') => run host (f a w')
    | (Abrupt e, w') => (Abrupt e, w')
    end.
Proof. apply run_bind_step. Qed.

Lemma run_catch_step {A} (host : Host) (x : Step A) (h : Error -> Async A) :
  run host (catch_step x h)
  = match run host x with
    | (Normal a, w) => (Normal a, w)
    | (Abrupt e, w) => run host (h e w)
    end.
Proof.
  induction x as [[a|e] w | wt w k IH]; simpl; auto.
Qed.

Lemma run_try_catch {A} (host : Host) (m : Async A) (h : Error -> Async A)
  (w : World) :
  run host (try_catch m h w)
  = match run host (m w) with
    | (Normal a, w') => (Normal a, w')
    | (Abrupt e, w') => run host (h e w')
    end.
Proof. apply run_catch_step. Qed.

Lemma emit_all_nil (w : World) : emit_all [] w = w.
Proof. destruct w; unfold emit_all; simpl. now rewrite app_nil_r. Qed.

Lemma emit_as_all (e : Event) (w : World) : emit e w = emit_all [e] w.
Proof. reflexivity. Qed.

Lemma emit_all_app (es1 es2 : list Event) (w : World) :
  emit_all es2 (emit_all es1 w) = emit_all (es1 ++ es2) w.
Proof. unfold emit_all; simpl. now rewrite app_assoc. Qed.

Lemma emit_all_with_state (es : list Event) f (w : World) :
  emit_all es (with_state f w) = with_state f (emit_all es w).
Proof. reflexivity. Qed.

Lemma run_ret {A} (host : Host) (a : A) (w : World) :
  run host (ret a w) = (Normal a, w).
Proof. reflexivity. Qed.

Lemma run_throw {A} (host : Host) (e : Error) (w : World) :
  run host (@throw A e w) = (Abrupt e, w).
Proof. reflexivity. Qed.

Lemma run_read {A} (host : Host) (f : World -> A) (w : World) :
  run host (read f w) = (Normal (f w), w).
Proof. reflexivity. Qed.

Lemma run_modify (host : Host) (f : World -> World) (w : World) :
  run host (modify f w) = (Normal tt, f w).
Proof. reflexivity. Qed.

Lemma run_await (host : Host) (wt : Wait) (w : World) :
  run host (await wt w) = (Normal (host w wt), w).
Proof. reflexivity. Qed.

Lemma run_settle {A} (host : Host) (c : Completion A) (w : World) :
  run host (settle c w) = (c, w).
Proof. now destruct c. Qed.

Create Rewrite HintDb run.
#[local] Hint Rewrite @run_bind @run_try_catch @run_ret @run_throw @run_read
  @run_modify @run_await @run_settle : run.

(** Take a run apart, one primitive at a time. *)
Ltac run_steps := repeat (autorewrite with run; cbv beta iota).

Ltac emits :=
  rewrite ?emit_as_all, <- ?emit_all_with_state, ?emit_all_app; cbn [app];
  rewrite <- ?app_assoc; cbn [app]; rewrite ?app_nil_r; try reflexivity.

Lemma run_yieldToMain (host : Host) (w : World) :
  run host (yieldToMain w) = (Normal tt, emit SetTimeout0 w).
Proof.
  unfold yieldToMain. run_steps.
  now destruct (host (emit SetTimeout0 w) AwaitTimeout).
Qed.

Lemma run_addLayers (host : Host) (b : list Marker) (w : World) :
  run host (addLayers b w) = (take_layers b, emit (AddLayers b) w).
Proof. unfold addLayers. now run_steps. Qed.

#[local] Hint Rewrite @run_yieldToMain @run_addLayers : run.

Lemma run_ingest (host : Host) (chunk : nat) (feats : list Value) :
  forall (i : nat) (buffer : list Marker) (w : World),
    run host (ingest chunk feats i buffer w)
    = (snd (ingest_events chunk feats i buffer),
       emit_all (fst (ingest_events chunk feats i buffer)) w).
Proof.
  induction feats as [|feature rest IH]; intros i buffer w;
    cbn [ingest ingest_events].
  - run_steps. cbn [fst snd]. now rewrite emit_all_nil.
  - assert (step : forall buffer',
      run host
        (bind (if (0 <? i) && (i mod chunk =? 0)
               then addLayers buffer' ;; yieldToMain ;; ret []
               else ret buffer')
              (fun districtMarkers => ingest chunk rest (S i) districtMarkers) w)
      = (snd (if (0 <? i) && (i mod chunk =? 0)
              then match take_layers buffer' with
                   | Abrupt e => ([AddLayers buffer'], Abrupt e)
                   | Normal _ =>
                       let (es, r) := ingest_events chunk rest (S i) [] in
                       (AddLayers buffer' :: SetTimeout0 :: es, r)
                   end
              else ingest_events chunk rest (S i) buffer'),
         emit_all (fst (if (0 <? i) && (i mod chunk =? 0)
              then match take_layers buffer' with
                   | Abrupt e => ([AddLayers buffer'], Abrupt e)
                   | Normal _ =>
                       let (es, r) := ingest_events chunk rest (S i) [] in
                       (AddLayers buffer' :: SetTimeout0 :: es, r)
                   end
              else ingest_events chunk rest (S i) buffer')) w)).
    { intros buffer'.
      destruct ((0 <? i) && (i mod chunk =? 0)); run_steps.
      - destruct (take_layers buffer') as [[]|e]; run_steps.
        + rewrite IH.
          destruct (ingest_events chunk rest (S i) []) as [es r]. cbn [fst snd].
          now rewrite !emit_as_all, !emit_all_app.
        + reflexivity.
      - now rewrite IH. }
    rewrite run_bind.
    destruct (convert_feature feature) as [|m|e];
      rewrite ?run_ret, ?run_throw; cbv beta iota.
    + apply step.
    + apply step.
    + cbn [fst snd]. now rewrite emit_all_nil.
Qed.

Lemma run_fetch (host : Host) (d : ShardDescriptor) (w : World) :
  run host (fetch d w)
  = (host (emit (Fetch d) w) (AwaitFetch (shard_url d)), emit (Fetch d) w).
Proof. unfold fetch. now run_steps. Qed.

Lemma run_json (host : Host) (r : Response) (w : World) :
  run host (json r w) = (host w (AwaitJson r), w).
Proof. unfold json. now run_steps. Qed.

#[local] Hint Rewrite @run_fetch @run_json @run_ingest : run.

Lemma run_loadDistrict (host : Host) (d : ShardDescriptor) (w : World) :
  run host (loadDistrict d w) = (Normal tt, loadDistrict_result host d w).
Proof.
  unfold loadDistrict, loadDistrict_result, shard_outcome.
  run_steps.
  destruct (resident w (code d)); [reflexivity|].
  run_steps.
  set (w1 := emit (Fetch d) (emit (ConsoleLoading d) w)).
  assert (Hw1 : w1 = emit_all [ConsoleLoading d; Fetch d] w)
    by (unfold w1; now rewrite !emit_as_all, emit_all_app).
  destruct (host w1 (AwaitFetch (shard_url d))) as [response|e]; run_steps.
  - destruct (ok response); cbn [negb]; run_steps.
    + destruct (host w1 (AwaitJson response)) as [data|e]; run_steps.
      * destruct (ingest_events chunkSize (features data) 0 [])
          as [es [remaining|e]]; cbn [fst snd]; run_steps.
        -- destruct remaining as [|m remaining].
           ++ cbn [length Nat.ltb Nat.leb take_layers]. run_steps.
              rewrite Hw1; emits.
           ++ change (0 <? length (m :: remaining)) with true. cbv iota.
              run_steps.
              destruct (take_layers (m :: remaining)) as [[]|e]; run_steps;
                rewrite Hw1; emits.
        -- rewrite Hw1; emits.
      * rewrite Hw1; emits.
    + rewrite Hw1; emits.
  - rewrite Hw1; emits.
Qed.

(** ** One feature *)

Lemma get_truthy (v : Value) (k : string) :
  truthy v = true -> get v k = Normal (member v k).
Proof. destruct v; simpl; congruence. Qed.

Lemma convert_feature_cases (f : Value) :
  convert_feature f
  = match get f "geometry" with
    | Abrupt e => Raised e
    | Normal _ =>
        if has_coordinates f then
          match destructure2 (coordinates_of f) with
          | Abrupt e => Raised e
          | Normal (lng, lat) =>
              match circleMarker lat lng with
              | Abrupt e => Raised e
              | Normal _ =>
                  Made {| latlng := (lat, lng);
                          props := or (member f "properties") (Object []) |}
              end
          end
        else Skipped
    end.
Proof.
  unfold convert_feature, geometry_guard, has_coordinates, coordinates_of.
  destruct f as [| |b|x|s|elems|members]; try reflexivity.
  cbn [get member].
  destruct (truthy (lookup "geometry" members)) eqn:Hg; cbn [andb].
  - now rewrite (get_truthy _ _ Hg).
  - now rewrite Hg.
Qed.

(** A feature whose conversion does not throw gives a render point
    exactly when it has coordinates. *)
Lemma makes_point_iff (f : Value) :
  makes_point f = has_coordinates f && negb (conversion_raises f).
Proof.
  unfold makes_point, conversion_raises. rewrite convert_feature_cases.
  destruct (get f "geometry") eqn:Hget.
  - destruct (has_coordinates f); [|reflexivity].
    destruct (destructure2 (coordinates_of f)) as [[lng lat]|e];
      [|reflexivity].
    now destruct (circleMarker lat lng).
  - destruct f; try discriminate; reflexivity.
Qed.

Lemma raises_conversion (f : Value) :
  raises f = false -> conversion_raises f = false.
Proof.
  unfold raises, conversion_raises. now destruct (convert_feature f).
Qed.

Lemma makes_point_quiet (f : Value) :
  raises f = false -> makes_point f = has_coordinates f.
Proof.
  intros H. rewrite makes_point_iff, (raises_conversion f H).
  apply andb_true_r.
Qed.

Lemma take_layers_accepted (batch : list Marker) :
  take_layers batch = Normal tt <-> forallb accepted batch = true.
Proof.
  induction batch as [|m rest IH]; cbn [take_layers forallb].
  - tauto.
  - unfold accepted at 1. destruct (addLayer m) as [[]|e]; cbn [andb].
    + exact IH.
    + split; discriminate.
Qed.

Lemma take_layers_refused (batch : list Marker) :
  forallb accepted batch = false -> exists e, take_layers batch = Abrupt e.
Proof.
  intros H. destruct (take_layers batch) as [[]|e] eqn:E; [|now exists e].
  apply take_layers_accepted in E. congruence.
Qed.

Lemma raises_accepted (f : Value) :
  raises f = false ->
  forallb accepted (match convert_feature f with Made m => [m] | _ => [] end)
  = true.
Proof.
  unfold raises. destruct (convert_feature f) as [|m|e]; try reflexivity.
  cbn. intros H. apply negb_false_iff in H. now rewrite H.
Qed.

(** C10. The marker of a feature stands at the coordinates of the feature
    in reverse order: the first value of [geometry.coordinates] (the
    longitude) becomes the second of the position and the second (the
    latitude) the first, both as they are, whatever they are. *)
Theorem marker_position_swaps_coordinates :
  forall (f : Value) (m : Marker),
    convert_feature f = Made m ->
    exists lng lat,
      destructure2 (coordinates_of f) = Normal (lng, lat)
      /\ latlng m = (lat, lng)
      /\ forall x y more,
           coordinates_of f = Array (x :: y :: more) -> lng = x /\ lat = y.
Proof.
  intros f m. rewrite convert_feature_cases.
  destruct (get f "geometry"); [|discriminate].
  destruct (has_coordinates f); [|discriminate].
  destruct (destructure2 (coordinates_of f)) as [[lng lat]|e] eqn:Hd;
    [|discriminate].
  destruct (circleMarker lat lng); [|discriminate].
  intros [= <-]. exists lng, lat. repeat split.
  - rewrite H in Hd. simpl in Hd. congruence.
  - rewrite H in Hd. simpl in Hd. congruence.
Qed.

(** ** The loop of [loadDistrict] *)

Lemma flushes_app (es1 es2 : list Event) :
  flushes (es1 ++ es2) = flushes es1 ++ flushes es2.
Proof. apply flat_map_app. Qed.

Lemma flushes_flush (b : list Marker) (es : list Event) :
  flushes (AddLayers b :: SetTimeout0 :: es) = b :: flushes es.
Proof. reflexivity. Qed.

Lemma points_app (es1 es2 : list Event) :
  points (es1 ++ es2) = points es1 ++ points es2.
Proof. unfold points. now rewrite flushes_app, concat_app. Qed.

Lemma yields_app (es1 es2 : list Event) :
  yields (es1 ++ es2) = yields es1 + yields es2.
Proof. unfold yields. now rewrite filter_app, length_app. Qed.

Lemma fetched_app (es1 es2 : list Event) :
  fetched (es1 ++ es2) = fetched es1 ++ fetched es2.
Proof. apply flat_map_app. Qed.

Lemma markers_of_app (l1 l2 : list Value) :
  markers_of (l1 ++ l2) = markers_of l1 ++ markers_of l2.
Proof. apply flat_map_app. Qed.

Lemma markers_of_cons (f : Value) (l : list Value) :
  markers_of (f :: l) = markers_of [f] ++ markers_of l.
Proof. apply (markers_of_app [f] l). Qed.

Lemma markers_of_length_le (l : list Value) : length (markers_of l) <= length l.
Proof.
  induction l as [|f l IH]; simpl; [lia|].
  rewrite length_app. destruct (convert_feature f); simpl; lia.
Qed.

Lemma markers_of_length (l : list Value) :
  length (markers_of l) = length (filter makes_point l).
Proof.
  induction l as [|f l IH]; simpl; [reflexivity|].
  unfold makes_point at 1. rewrite length_app.
  destruct (convert_feature f); simpl; lia.
Qed.

Lemma in_firstn {A} (n : nat) (l : list A) (x : A) :
  In x (firstn n l) -> In x l.
Proof.
  intros H. rewrite <- (firstn_skipn n l). apply in_or_app. now left.
Qed.

Lemma in_skipn {A} (n : nat) (l : list A) (x : A) :
  In x (skipn n l) -> In x l.
Proof.
  intros H. rewrite <- (firstn_skipn n l). apply in_or_app. now right.
Qed.

Lemma filter_complement {A} (f : A -> bool) (l : list A) :
  length (filter f l) = length l - length (filter (fun x => negb (f x)) l).
Proof.
  induction l as [|x l IH]; cbn [filter length]; [reflexivity|].
  assert (length (filter (fun x => negb (f x)) l) <= length l)
    by apply filter_length_le.
  destruct (f x); cbn [negb length]; lia.
Qed.

Section Chunks.

Variable B : nat.
Hypothesis B_positive : 0 < B.

Lemma accepted_app (b1 b2 : list Marker) :
  forallb accepted b1 = true -> forallb accepted b2 = true ->
  forallb accepted (b1 ++ b2) = true.
Proof. intros H1 H2. now rewrite forallb_app, H1, H2. Qed.

Lemma accepted_markers_of (feats : list Value) :
  existsb raises feats = false -> forallb accepted (markers_of feats) = true.
Proof.
  induction feats as [|f rest IH]; intros Hr; [reflexivity|].
  simpl in Hr. apply orb_false_iff in Hr as [Hf Hrest].
  rewrite (markers_of_cons f rest). apply accepted_app; [|now apply IH].
  unfold markers_of. cbn [flat_map]. rewrite app_nil_r.
  now apply raises_accepted.
Qed.

Lemma accepted_step (f : Value) (buffer : list Marker) :
  raises f = false -> forallb accepted buffer = true ->
  forallb accepted (buffer ++ markers_of [f]) = true.
Proof.
  intros Hf Hb. apply accepted_app; [exact Hb|].
  apply accepted_markers_of. cbn. now rewrite Hf.
Qed.

Lemma ingest_events_cons (f : Value) (rest : list Value) (i : nat)
  (buffer : list Marker) :
  raises f = false ->
  forallb accepted buffer = true ->
  ingest_events B (f :: rest) i buffer
  = if flush_at B i
    then let (es, r) := ingest_events B rest (S i) [] in
         (AddLayers (buffer ++ markers_of [f]) :: SetTimeout0 :: es, r)
    else ingest_events B rest (S i) (buffer ++ markers_of [f]).
Proof.
  intros Hf Hb. pose proof (accepted_step f buffer Hf Hb) as Hb'.
  apply take_layers_accepted in Hb'. revert Hf Hb'.
  unfold raises, flush_at, markers_of. cbn [ingest_events flat_map].
  destruct (convert_feature f) as [|m|e]; try discriminate; intros _;
    rewrite ?app_nil_r; intros ->; reflexivity.
Qed.


(** When no feature raises the loop ends normally, and what it flushed
    together with what it returns is what it held at the start followed by
    the render points of the features, in order. *)
Lemma ingest_events_normal (feats : list Value) :
  existsb raises feats = false ->
  forall i buffer,
    forallb accepted buffer = true ->
    exists remaining,
      snd (ingest_events B feats i buffer) = Normal remaining
      /\ points (fst (ingest_events B feats i buffer)) ++ remaining
         = buffer ++ markers_of feats
      /\ forallb accepted remaining = true.
Proof.
  induction feats as [|f rest IH]; intros Hr i buffer Hb.
  - exists buffer. simpl. now rewrite app_nil_r.
  - simpl in Hr. apply orb_false_iff in Hr as [Hf Hrest].
    rewrite (ingest_events_cons f rest i buffer Hf Hb), (markers_of_cons f rest).
    destruct (flush_at B i).
    + destruct (IH Hrest (S i) [] eq_refl) as (remaining & Hs & Hp & Ha).
      destruct (ingest_events B rest (S i) []) as [es r].
      exists remaining. split; [exact Hs|]. split; [|exact Ha].
      cbn [fst snd] in *.
      unfold points in *. cbn [flushes flat_map concat app] in *.
      fold (flushes es). rewrite <- !app_assoc, Hp. reflexivity.
    + destruct (IH Hrest (S i) (buffer ++ markers_of [f])
                  (accepted_step f buffer Hf Hb))
        as (remaining & Hs & Hp & Ha).
      exists remaining. split; [exact Hs|]. split; [|exact Ha].
      now rewrite Hp, <- app_assoc.
Qed.

(** When a feature raises, or a marker already buffered is one the
    cluster group cannot take, the loop throws, or it returns a buffer the
    cluster group will throw on. *)
Lemma ingest_events_abrupt (feats : list Value) :
  forall i buffer,
    existsb raises feats = true \/ forallb accepted buffer = false ->
    (exists e, snd (ingest_events B feats i buffer) = Abrupt e)
    \/ (exists remaining,
          snd (ingest_events B feats i buffer) = Normal remaining
          /\ forallb accepted remaining = false).
Proof.
  induction feats as [|f rest IH]; intros i buffer Hbad.
  - right. exists buffer. split; [reflexivity|].
    destruct Hbad as [Hr|Hb]; [discriminate|exact Hb].
  - cbn [ingest_events].
    assert (Hstep : forall buffer',
      existsb raises rest = true \/ forallb accepted buffer' = false ->
      let out := if (0 <? i) && (i mod B =? 0)
                 then match take_layers buffer' with
                      | Abrupt e => ([AddLayers buffer'], Abrupt e)
                      | Normal _ =>
                          let (es, r) := ingest_events B rest (S i) [] in
                          (AddLayers buffer' :: SetTimeout0 :: es, r)
                      end
                 else ingest_events B rest (S i) buffer' in
      (exists e, snd out = Abrupt e)
      \/ (exists remaining,
            snd out = Normal remaining /\ forallb accepted remaining = false)).
    { intros buffer' Hbad'. destruct ((0 <? i) && (i mod B =? 0)).
      - destruct (take_layers buffer') as [[]|e] eqn:Ht.
        + apply take_layers_accepted in Ht.
          destruct Hbad' as [Hr|Hb]; [|congruence].
          specialize (IH (S i) [] (or_introl Hr)).
          destruct (ingest_events B rest (S i) []) as [es r]. exact IH.
        + left. now exists e.
      - now apply IH. }
    destruct (convert_feature f) as [|m|e] eqn:Hc.
    + apply Hstep. destruct Hbad as [Hr|Hb]; [left|now right].
      simpl in Hr. unfold raises in Hr at 1. now rewrite Hc in Hr.
    + apply Hstep. destruct (accepted m) eqn:Hm.
      * destruct Hbad as [Hr|Hb].
        -- left. simpl in Hr. unfold raises in Hr at 1.
           now rewrite Hc, Hm in Hr.
        -- right. now rewrite forallb_app, Hb.
      * right. rewrite forallb_app. cbn [forallb]. rewrite Hm.
        now rewrite andb_false_r.
    + left. now exists e.
Qed.

(** The loop emits flushes and yields only, one yield after each flush
    unless the flush throws. *)
Lemma ingest_events_shape (feats : list Value) :
  forall i buffer,
    let es := fst (ingest_events B feats i buffer) in
    (forall remaining,
       snd (ingest_events B feats i buffer) = Normal remaining ->
       length (flushes es) = yields es)
    /\ fetched es = []
    /\ ~ (exists c, In (MarkLoaded c) es).
Proof.
  induction feats as [|f rest IH]; intros i buffer; cbn [ingest_events].
  - simpl. repeat split; auto. intros [c []].
  - assert (step : forall buffer',
      let out := if (0 <? i) && (i mod B =? 0)
                 then match take_layers buffer' with
                      | Abrupt e => ([AddLayers buffer'], Abrupt e)
                      | Normal _ =>
                          let (es, r) := ingest_events B rest (S i) [] in
                          (AddLayers buffer' :: SetTimeout0 :: es, r)
                      end
                 else ingest_events B rest (S i) buffer' in
      (forall remaining, snd out = Normal remaining ->
                         length (flushes (fst out)) = yields (fst out))
      /\ fetched (fst out) = []
      /\ ~ (exists c, In (MarkLoaded c) (fst out))).
    { intros buffer'. destruct ((0 <? i) && (i mod B =? 0)).
      - destruct (take_layers buffer') as [[]|e].
        + specialize (IH (S i) []).
          destruct (ingest_events B rest (S i) []) as [es r].
          cbn [fst snd] in *. destruct IH as (IH1 & IH2 & IH3).
          repeat split.
          * intros remaining Hr. unfold yields in *. simpl.
            now rewrite (IH1 remaining Hr).
          * exact IH2.
          * intros [c [H|[H|H]]]; try discriminate. apply IH3. now exists c.
        + cbn [fst snd]. repeat split.
          * discriminate.
          * intros [c [H|[]]]. discriminate.
      - apply IH. }
    destruct (convert_feature f); try apply step.
    simpl. repeat split; auto. intros [c []].
Qed.

Lemma flush_at_step (i : nat) :
  (i - 1) / B <= i / B
  /\ i / B - (i - 1) / B = if flush_at B i then 1 else 0.
Proof.
  unfold flush_at. destruct i as [|j].
  { cbn [andb Nat.ltb Nat.leb]. rewrite Nat.sub_diag. auto. }
  replace (S j - 1) with j by lia.
  change (0 <? S j) with true. cbn [andb].
  pose proof (Nat.div_mod_eq j B) as Hj.
  pose proof (Nat.mod_upper_bound j B ltac:(lia)) as Hr.
  destruct (Nat.eq_dec (j mod B) (B - 1)) as [Hlast|Hnot].
  - assert (Hq : S (j / B) = S j / B)
      by (apply (Nat.div_unique (S j) B (S (j / B)) 0); nia).
    assert (Hm : 0 = S j mod B)
      by (apply (Nat.mod_unique (S j) B (S (j / B)) 0); nia).
    rewrite <- Hq, <- Hm. cbn [Nat.eqb]. lia.
  - assert (Hq : j / B = S j / B)
      by (apply (Nat.div_unique (S j) B (j / B) (S (j mod B))); nia).
    assert (Hm : S (j mod B) = S j mod B)
      by (apply (Nat.mod_unique (S j) B (j / B) (S (j mod B))); nia).
    rewrite <- Hq, <- Hm. cbn [Nat.eqb]. lia.
Qed.

(** The number of yields of the loop over [feats] from index [i]. *)
Lemma ingest_events_yields (feats : list Value) :
  existsb raises feats = false ->
  forall i buffer,
    forallb accepted buffer = true ->
    yields (fst (ingest_events B feats i buffer))
    = (i + length feats - 1) / B - (i - 1) / B.
Proof.
  induction feats as [|f rest IH]; intros Hr i buffer Hb.
  - cbn [ingest_events fst length]. now rewrite Nat.add_0_r, Nat.sub_diag.
  - simpl in Hr. apply orb_false_iff in Hr as [Hf Hrest].
    rewrite (ingest_events_cons f rest i buffer Hf Hb).
    destruct (flush_at_step i) as [Hle Hstep].
    assert (Hmono : i / B <= (i + length rest) / B)
      by (apply Nat.Div0.div_le_mono; lia).
    cbn [length]. replace (i + S (length rest) - 1) with (i + length rest) by lia.
    destruct (flush_at B i).
    + specialize (IH Hrest (S i) [] eq_refl).
      destruct (ingest_events B rest (S i) []) as [es r]. cbn [fst] in *.
      unfold yields in *. cbn [filter length]. rewrite IH.
      replace (S i + length rest - 1) with (i + length rest) by lia.
      replace (S i - 1) with i by lia. lia.
    + rewrite (IH Hrest (S i) _ (accepted_step f buffer Hf Hb)).
      replace (S i + length rest - 1) with (i + length rest) by lia.
      replace (S i - 1) with i by lia. lia.
Qed.

(** A run of features none of which is at a flushing index is buffered. *)
Lemma ingest_events_segment (seg rest : list Value) :
  existsb raises seg = false ->
  forall i buffer,
    forallb accepted buffer = true ->
    (forall j, i <= j < i + length seg -> flush_at B j = false) ->
    ingest_events B (seg ++ rest) i buffer
    = ingest_events B rest (i + length seg) (buffer ++ markers_of seg).
Proof.
  induction seg as [|f seg IH]; intros Hr i buffer Hb Hquiet.
  - simpl. now rewrite Nat.add_0_r, app_nil_r.
  - simpl in Hr. apply orb_false_iff in Hr as [Hf Hseg].
    cbn [app length].
    rewrite (ingest_events_cons f (seg ++ rest) i buffer Hf Hb).
    rewrite (Hquiet i) by (cbn [length]; lia).
    rewrite (IH Hseg (S i) _ (accepted_step f buffer Hf Hb)).
    + rewrite (markers_of_cons f seg), <- app_assoc.
      now rewrite Nat.add_succ_r.
    + intros j Hj. apply Hquiet. cbn [length]. lia.
Qed.

Lemma split_at {A} (n : nat) :
  forall (l : list A) (x : A) (tl : list A),
    skipn n l = x :: tl ->
    firstn (S n) l = firstn n l ++ [x] /\ skipn (S n) l = tl.
Proof.
  induction n as [|n IH]; intros l x tl H.
  - simpl in H. subst l. now split.
  - destruct l as [|a l]; [discriminate|]. simpl in H.
    destruct (IH l x tl H) as [H1 H2]. split.
    + change (firstn (S (S n)) (a :: l)) with (a :: firstn (S n) l).
      now rewrite H1.
    + exact H2.
Qed.

Lemma flush_at_chunk (q : nat) :
  (forall j, B * q + 1 <= j < B * q + 1 + (B - 1) -> flush_at B j = false)
  /\ flush_at B (B * q + 1 + (B - 1)) = true.
Proof.
  unfold flush_at. split.
  - intros j Hj. apply andb_false_iff. right. apply Nat.eqb_neq.
    rewrite <- (Nat.mod_unique j B q (j - B * q)); nia.
  - apply andb_true_iff. split; [apply Nat.ltb_lt; lia|].
    apply Nat.eqb_eq. symmetry.
    apply (Nat.mod_unique _ B (S q) 0); nia.
Qed.

(** From an index just after a flush, the next [B] features make one
    batch. *)
Lemma ingest_events_chunk (q : nat) (feats : list Value) (buffer : list Marker) :
  B <= length feats ->
  existsb raises (firstn B feats) = false ->
  forallb accepted buffer = true ->
  ingest_events B feats (B * q + 1) buffer
  = let (es, r) := ingest_events B (skipn B feats) (B * (q + 1) + 1) [] in
    (AddLayers (buffer ++ markers_of (firstn B feats)) :: SetTimeout0 :: es, r).
Proof.
  intros Hlen Hr Hbuf.
  pose (b := B - 1). assert (HB : S b = B) by (unfold b; lia).
  destruct (skipn b feats) as [|x tl] eqn:Hx.
  { apply (f_equal (@length _)) in Hx. rewrite length_skipn in Hx.
    simpl in Hx. lia. }
  destruct (split_at b feats x tl Hx) as [Hfirst Hskip].
  rewrite HB in Hfirst, Hskip. rewrite Hfirst in Hr.
  rewrite existsb_app in Hr. apply orb_false_iff in Hr as [Hseg Hlast].
  simpl in Hlast. apply orb_false_iff in Hlast as [Hlast _].
  destruct (flush_at_chunk q) as [Hquiet Hflush].
  assert (Hb : length (firstn b feats) = B - 1)
    by (rewrite length_firstn; lia).
  rewrite <- (firstn_skipn b feats) at 1. rewrite Hx.
  rewrite (ingest_events_segment _ _ Hseg _ _ Hbuf)
    by (intros j Hj; apply Hquiet; lia).
  rewrite (ingest_events_cons x tl _ _ Hlast), Hb, Hflush
    by (apply accepted_app; [exact Hbuf|now apply accepted_markers_of]).
  replace (S (B * q + 1 + (B - 1))) with (B * (q + 1) + 1) by lia.
  rewrite Hskip, Hfirst.
  now rewrite markers_of_app, app_assoc.
Qed.

(** The batches of the loop started just after a flush: batch [k] holds
    the render points of the features at offsets [B * k] to
    [B * k + B - 1], the first batch after what was buffered. *)
Lemma ingest_events_batches (k : nat) :
  forall (q : nat) (feats : list Value) (buffer : list Marker),
    B * (k + 1) <= length feats ->
    existsb raises feats = false ->
    forallb accepted buffer = true ->
    nth_error (flushes (fst (ingest_events B feats (B * q + 1) buffer))) k
    = Some ((if k =? 0 then buffer else [])
            ++ markers_of (firstn B (skipn (B * k) feats))).
Proof.
  assert (raises_firstn : forall n l,
    existsb raises l = false -> existsb raises (firstn n l) = false).
  { intros n l H. rewrite <- (firstn_skipn n l), existsb_app in H.
    now apply orb_false_iff in H as [H _]. }
  assert (raises_skipn : forall n l,
    existsb raises l = false -> existsb raises (skipn n l) = false).
  { intros n l H. rewrite <- (firstn_skipn n l), existsb_app in H.
    now apply orb_false_iff in H as [_ H]. }
  induction k as [|k IH]; intros q feats buffer Hlen Hr Hbuf.
  - rewrite ingest_events_chunk by (auto; lia).
    destruct (ingest_events B (skipn B feats) (B * (q + 1) + 1) []) as [es r].
    rewrite Nat.mul_0_r. reflexivity.
  - rewrite ingest_events_chunk by (auto; lia).
    specialize (IH (q + 1) (skipn B feats) []).
    destruct (ingest_events B (skipn B feats) (B * (q + 1) + 1) []) as [es r].
    cbn [fst] in IH |- *. rewrite flushes_flush. cbn [nth_error].
    rewrite IH by (rewrite ?length_skipn; auto; lia).
    rewrite skipn_skipn. replace (B * k + B) with (B * S k) by lia.
    now destruct k.
Qed.

End Chunks.

Lemma ingest_events_first_batch (B : nat) (feats : list Value) :
  0 < B ->
  B < length feats ->
  existsb raises feats = false ->
  nth_error (flushes (fst (ingest_events B feats 0 []))) 0
  = Some (markers_of (firstn (S B) feats)).
Proof.
  intros HB Hlen Hr. destruct feats as [|f0 rest]; [simpl in Hlen; lia|].
  simpl in Hr. apply orb_false_iff in Hr as [Hf Hrest]. simpl in Hlen.
  rewrite (ingest_events_cons B f0 rest 0 [] Hf eq_refl).
  change (flush_at B 0) with false. cbv iota.
  replace (ingest_events B rest 1) with (ingest_events B rest (B * 0 + 1))
    by (f_equal; lia).
  rewrite (ingest_events_batches B HB 0 0 rest ([] ++ markers_of [f0]))
    by (auto using accepted_step; lia).
  cbn [Nat.eqb app skipn Nat.mul]. rewrite Nat.mul_0_r. cbn [skipn firstn].
  now rewrite (markers_of_cons f0 (firstn B rest)).
Qed.

Lemma ingest_events_later_batch (B : nat) (feats : list Value) (k : nat) :
  0 < B ->
  1 <= k ->
  B * (k + 1) < length feats ->
  existsb raises feats = false ->
  nth_error (flushes (fst (ingest_events B feats 0 []))) k
  = Some (markers_of (firstn B (skipn (B * k + 1) feats))).
Proof.
  intros HB Hk Hlen Hr. destruct feats as [|f0 rest]; [simpl in Hlen; lia|].
  simpl in Hr. apply orb_false_iff in Hr as [Hf Hrest]. simpl in Hlen.
  rewrite (ingest_events_cons B f0 rest 0 [] Hf eq_refl).
  change (flush_at B 0) with false. cbv iota.
  replace (ingest_events B rest 1) with (ingest_events B rest (B * 0 + 1))
    by (f_equal; lia).
  rewrite (ingest_events_batches B HB k 0 rest ([] ++ markers_of [f0]))
    by (auto using accepted_step; lia).
  rewrite Nat.add_1_r. cbn [skipn].
  destruct k; [lia|reflexivity].
Qed.

(** ** One shard *)

Lemma has_add (c : string) (s : StringSet.t) :
  StringSet.has (StringSet.add c s) c = true.
Proof.
  unfold StringSet.add. destruct (StringSet.has s c) eqn:H; [exact H|].
  unfold StringSet.has. rewrite existsb_app. simpl.
  now rewrite String.eqb_refl, orb_true_r.
Qed.

Lemma has_add_mono (c x : string) (s : StringSet.t) :
  StringSet.has s x = true -> StringSet.has (StringSet.add c s) x = true.
Proof.
  unfold StringSet.add. destruct (StringSet.has s c); [auto|].
  unfold StringSet.has. rewrite existsb_app. intros ->. reflexivity.
Qed.

Lemma has_add_inv (c x : string) (s : StringSet.t) :
  StringSet.has (StringSet.add c s) x = true ->
  StringSet.has s x = true \/ x = c.
Proof.
  unfold StringSet.add. destruct (StringSet.has s c); [auto|].
  unfold StringSet.has. rewrite existsb_app. simpl. rewrite orb_false_r.
  intros H. apply orb_true_iff in H as [H|H]; [auto|].
  right. now apply String.eqb_eq.
Qed.

Lemma loadDistrict_success (host : Host) (d : ShardDescriptor) (w : World)
  (data : FeatureCollection) :
  resident w (code d) = false ->
  shard_outcome host d w = Normal data ->
  existsb raises (features data) = false ->
  exists es remaining,
    ingest_events chunkSize (features data) 0 [] = (es, Normal remaining)
    /\ points es ++ remaining = markers_of (features data)
    /\ snd (run host (loadDistrict d w))
       = emit_all (loaded_events d data es remaining)
           (with_state (mark_loaded (code d)) w).
Proof.
  intros Hres Hout Hr. rewrite run_loadDistrict. cbn [snd].
  unfold loadDistrict_result. rewrite Hres, Hout.
  destruct (ingest_events_normal chunkSize (features data) Hr 0 [] eq_refl)
    as (remaining & Hs & Hp & Ha).
  destruct (ingest_events chunkSize (features data) 0 []) as [es r].
  cbn [fst snd] in *. subst r. exists es, remaining.
  apply take_layers_accepted in Ha. rewrite Ha. auto.
Qed.

Lemma loadDistrict_failure (host : Host) (d : ShardDescriptor) (w : World)
  (e : Error) :
  resident w (code d) = false ->
  shard_outcome host d w = Abrupt e ->
  run host (loadDistrict d w)
  = (Normal tt, emit_all [ConsoleLoading d; Fetch d; ConsoleError (code d) e] w).
Proof.
  intros Hres Hout. rewrite run_loadDistrict.
  unfold loadDistrict_result. now rewrite Hres, Hout.
Qed.

Lemma loadDistrict_raise (host : Host) (d : ShardDescriptor) (w : World)
  (data : FeatureCollection) :
  resident w (code d) = false ->
  shard_outcome host d w = Normal data ->
  existsb raises (features data) = true ->
  exists es e,
    snd (run host (loadDistrict d w))
    = emit_all ([ConsoleLoading d; Fetch d] ++ es ++ [ConsoleError (code d) e]) w.
Proof.
  intros Hres Hout Hr. rewrite run_loadDistrict. cbn [snd].
  unfold loadDistrict_result. rewrite Hres, Hout.
  destruct (ingest_events_abrupt chunkSize (features data) 0 [] (or_introl Hr))
    as [[e He] | (remaining & He & Ha)];
    destruct (ingest_events chunkSize (features data) 0 []) as [es r];
    cbn [snd] in He; subst r.
  - now exists es, e.
  - destruct (take_layers_refused remaining Ha) as [e ->].
    exists (es ++ [AddLayers remaining]), e. now rewrite <- !app_assoc.
Qed.

Lemma points_final_flush (remaining : list Marker) :
  points (if 0 <? length remaining then [AddLayers remaining] else [])
  = remaining.
Proof.
  destruct remaining; [reflexivity|].
  unfold points. simpl. now rewrite app_nil_r.
Qed.

Lemma points_loaded_events d data es remaining :
  points (loaded_events d data es remaining) = points es ++ remaining.
Proof.
  unfold loaded_events. rewrite !points_app, points_final_flush.
  change (points [ConsoleLoading d; Fetch d]) with (@nil Marker).
  change (points [MarkLoaded (code d);
                  ConsoleLoaded (code d) (length (features data))])
    with (@nil Marker).
  now rewrite app_nil_r.
Qed.

(** ** Ingestion of a shard *)

Lemma history_emit_all (es : list Event) (w : World) :
  history (emit_all es w) = history w ++ es.
Proof. reflexivity. Qed.

(** The loop of [loadDistrict] writes no progress report and no error. *)
Lemma ingest_events_no_progress (chunk : nat) (feats : list Value) :
  forall i buffer,
    filter is_progress (fst (ingest_events chunk feats i buffer)) = []
    /\ filter is_error (fst (ingest_events chunk feats i buffer)) = [].
Proof.
  induction feats as [|f rest IH]; intros i buffer; cbn [ingest_events].
  - now split.
  - assert (step : forall buffer',
      let es := fst (if (0 <? i) && (i mod chunk =? 0)
                     then match take_layers buffer' with
                          | Abrupt e => ([AddLayers buffer'], Abrupt e)
                          | Normal _ =>
                              let (es, r) := ingest_events chunk rest (S i) [] in
                              (AddLayers buffer' :: SetTimeout0 :: es, r)
                          end
                     else ingest_events chunk rest (S i) buffer') in
      filter is_progress es = [] /\ filter is_error es = []).
    { intros buffer'. destruct ((0 <? i) && (i mod chunk =? 0)); [|apply IH].
      destruct (take_layers buffer'); [|now split].
      specialize (IH (S i) []).
      destruct (ingest_events chunk rest (S i) []) as [es r]. exact IH. }
    destruct (convert_feature f); try apply step. now split.
Qed.

(** A shard loaded in full leaves no error on the console. *)
Lemma loaded_events_no_error d data remaining :
  filter is_error
    (loaded_events d data (fst (ingest_events chunkSize (features data) 0 []))
       remaining)
  = [].
Proof.
  unfold loaded_events. rewrite !filter_app.
  rewrite (proj2 (ingest_events_no_progress chunkSize (features data) 0 [])).
  now destruct (0 <? length remaining).
Qed.

(** C1, as the code has it.  Take a collection none of whose features
    raises: none is [null] or [undefined], none has coordinates that are
    present but cannot be iterated, and none has a position the library
    throws on, when the marker is built or when it is handed over.  Then a
    feature yields a render point if and only if its geometry and the
    coordinates of its geometry are both present (truthy): the guard asks
    no more, so that a position with an altitude yields a point as well;
    the other features are skipped, and skipped in silence, since no error
    is written and the shard becomes resident.  The render points handed
    to the rendering layer are those of the features with coordinates,
    each once, in source order: their number is the number of features
    less those without coordinates. *)
Theorem ingestion_adds_each_located_feature_once :
  forall (host : Host) (d : ShardDescriptor) (w : World)
         (data : FeatureCollection),
    resident w (code d) = false ->
    shard_outcome host d w = Normal data ->
    existsb raises (features data) = false ->
    (forall f, In f (features data) ->
               (makes_point f = true <-> has_coordinates f = true))
    /\ exists new,
         history (snd (run host (loadDistrict d w))) = history w ++ new
         /\ points new = markers_of (features data)
         /\ length (points new)
            = length (features data)
              - length (filter (fun f => negb (has_coordinates f))
                               (features data))
         /\ filter is_error new = []
         /\ resident (snd (run host (loadDistrict d w))) (code d) = true.
Proof.
  intros host d w data Hres Hout Hr.
  assert (Hiff : forall f, In f (features data) ->
                           makes_point f = has_coordinates f).
  { intros f Hin. apply makes_point_quiet.
    destruct (raises f) eqn:E; [|reflexivity].
    assert (existsb raises (features data) = true)
      by (apply existsb_exists; eauto).
    congruence. }
  split.
  - intros f Hin. now rewrite (Hiff f Hin).
  - destruct (loadDistrict_success host d w data Hres Hout Hr)
      as (es & remaining & Hi & Hp & Hw).
    exists (loaded_events d data es remaining). rewrite Hw.
    split; [reflexivity|].
    rewrite points_loaded_events, Hp. split; [reflexivity|].
    split; [|split].
    + rewrite markers_of_length, (filter_ext_in _ _ _ Hiff).
      apply filter_complement.
    + pose proof (loaded_events_no_error d data remaining) as He.
      now rewrite Hi in He.
    + unfold resident, mark_loaded.
      cbn [districtState emit_all with_state loadedDistricts add_loaded].
      apply has_add.
Qed.

Lemma loaded_events_split d data es remaining :
  loaded_events d data es remaining
  = ([ConsoleLoading d; Fetch d] ++ es
     ++ (if 0 <? length remaining then [AddLayers remaining] else []))
    ++ [MarkLoaded (code d); ConsoleLoaded (code d) (length (features data))].
Proof. unfold loaded_events. now rewrite <- !app_assoc. Qed.

(** C2. A shard that was not resident is resident after [loadDistrict]
    only if the host delivered its collection and every feature was
    converted: the history then ends with the insertion of the code into
    the resident set and the console message, and everything before the
    insertion contains the render points of all the features with
    coordinates and no earlier insertion.  If the fetch or the parse fails
    [districtState] is left as it was, and if a feature raises the shard
    is not resident either. *)
Theorem resident_only_after_full_handover :
  forall (host : Host) (d : ShardDescriptor) (w : World),
    resident w (code d) = false ->
    let w' := snd (run host (loadDistrict d w)) in
    (resident w' (code d) = true ->
     exists data before,
       shard_outcome host d w = Normal data
       /\ existsb raises (features data) = false
       /\ history w'
          = history w ++ before
            ++ [MarkLoaded (code d);
                ConsoleLoaded (code d) (length (features data))]
       /\ points before = markers_of (features data)
       /\ ~ In (MarkLoaded (code d)) before)
    /\ (forall e, shard_outcome host d w = Abrupt e ->
                  resident w' (code d) = false
                  /\ districtState w' = districtState w)
    /\ (forall data, shard_outcome host d w = Normal data ->
                     existsb raises (features data) = true ->
                     resident w' (code d) = false).
Proof.
  intros host d w Hres w'. subst w'. repeat split.
  - destruct (shard_outcome host d w) as [data|e] eqn:Hout.
    + destruct (existsb raises (features data)) eqn:Hr.
      * destruct (loadDistrict_raise host d w data Hres Hout Hr)
          as (es & e & ->).
        unfold resident in *. cbn [districtState emit_all]. congruence.
      * destruct (loadDistrict_success host d w data Hres Hout Hr)
          as (es & remaining & Hi & Hp & ->).
        intros _. exists data.
        exists ([ConsoleLoading d; Fetch d] ++ es
                ++ (if 0 <? length remaining then [AddLayers remaining] else [])).
        split; [reflexivity|]. split; [exact Hr|]. split; [|split].
        -- rewrite history_emit_all, loaded_events_split.
           cbn [history with_state]. now rewrite <- app_assoc.
        -- rewrite !points_app, points_final_flush. exact Hp.
        -- intros Hin. apply in_app_or in Hin as [Hin|Hin].
           { destruct Hin as [Hin|[Hin|[]]]; discriminate. }
           apply in_app_or in Hin as [Hin|Hin].
           { destruct (ingest_events_shape chunkSize (features data) 0 [])
               as (_ & _ & Hnone).
             rewrite Hi in Hnone. apply Hnone. now exists (code d). }
           destruct (0 <? length remaining); [|contradiction].
           destruct Hin as [Hin|[]]; discriminate.
    + rewrite (loadDistrict_failure host d w e Hres Hout). cbn [snd].
      unfold resident in *. cbn [districtState emit_all]. congruence.
  - rewrite (loadDistrict_failure host d w e Hres H). exact Hres.
  - now rewrite (loadDistrict_failure host d w e Hres H).
  - intros data Hout Hr.
    destruct (loadDistrict_raise host d w data Hres Hout Hr) as (es & e & ->).
    exact Hres.
Qed.

Lemma yields_loaded_events d data es remaining :
  yields (loaded_events d data es remaining) = yields es.
Proof.
  unfold loaded_events. rewrite !yields_app.
  destruct (0 <? length remaining); cbn; lia.
Qed.

Lemma flushes_loaded_events d data es remaining :
  flushes (loaded_events d data es remaining)
  = flushes es ++ (if 0 <? length remaining then [remaining] else []).
Proof.
  unfold loaded_events. rewrite !flushes_app.
  destruct (0 <? length remaining); cbn; now rewrite ?app_nil_r.
Qed.

(** C6, as the code has it.  The ingestion of a collection of [M]
    features, those without coordinates included, none of which raises,
    yields to the event loop [(M - 1) / 500] times (never for an empty
    collection): once after each flush made inside the loop, and not after
    the flush of what is left at the end. *)
Theorem ingestion_yields :
  forall (host : Host) (d : ShardDescriptor) (w : World)
         (data : FeatureCollection),
    resident w (code d) = false ->
    shard_outcome host d w = Normal data ->
    existsb raises (features data) = false ->
    exists new,
      history (snd (run host (loadDistrict d w))) = history w ++ new
      /\ yields new = (length (features data) - 1) / 500
      /\ yields new <= length (flushes new) <= S (yields new).
Proof.
  intros host d w data Hres Hout Hr.
  destruct (loadDistrict_success host d w data Hres Hout Hr)
    as (es & remaining & Hi & _ & ->).
  exists (loaded_events d data es remaining). split; [reflexivity|].
  rewrite yields_loaded_events, flushes_loaded_events, length_app.
  assert (Hpos : 0 < chunkSize) by (unfold chunkSize; lia).
  pose proof (ingest_events_yields chunkSize Hpos (features data) Hr 0 []
                eq_refl) as Hy.
  destruct (ingest_events_shape chunkSize (features data) 0 []) as (Hf & _).
  rewrite Hi in Hy, Hf. cbn [fst snd] in Hy, Hf.
  specialize (Hf remaining eq_refl).
  change (0 - 1) with 0 in Hy. rewrite Nat.Div0.div_0_l, Nat.sub_0_r in Hy.
  change (0 + length (features data)) with (length (features data)) in Hy.
  split; [exact Hy|].
  rewrite Hf. destruct (0 <? length remaining); cbn [length]; lia.
Qed.

(** C7, as the code has it.  In the ingestion of a collection none of
    whose features raises, every flush after the first that is made inside
    the loop hands over, as one batch, the render points of 500 consecutive
    features (flush [k], counting from zero, those of the features at
    indices [500 * k + 1] to [500 * k + 500]): at most 500 points, and
    exactly 500 when each of these features has coordinates. *)
Theorem full_batches :
  forall (host : Host) (d : ShardDescriptor) (w : World)
         (data : FeatureCollection) (k : nat),
    resident w (code d) = false ->
    shard_outcome host d w = Normal data ->
    existsb raises (features data) = false ->
    1 <= k ->
    500 * (k + 1) < length (features data) ->
    let source := firstn 500 (skipn (500 * k + 1) (features data)) in
    exists new,
      history (snd (run host (loadDistrict d w))) = history w ++ new
      /\ nth_error (flushes new) k = Some (markers_of source)
      /\ length source = 500
      /\ length (markers_of source) <= 500
      /\ (forallb has_coordinates source = true ->
          length (markers_of source) = 500).
Proof.
  intros host d w data k Hres Hout Hr Hk Hlen source.
  destruct (loadDistrict_success host d w data Hres Hout Hr)
    as (es & remaining & Hi & _ & ->).
  exists (loaded_events d data es remaining). split; [reflexivity|].
  assert (Hpos : 0 < chunkSize) by (unfold chunkSize; lia).
  pose proof (ingest_events_later_batch chunkSize (features data) k
                Hpos Hk Hlen Hr) as Hb.
  rewrite Hi in Hb. cbn [fst] in Hb.
  assert (Hsrc : length source = 500).
  { unfold source. rewrite length_firstn, length_skipn. lia. }
  split; [|split; [exact Hsrc|split]].
  - rewrite flushes_loaded_events, nth_error_app1; [exact Hb|].
    apply nth_error_Some. rewrite Hb. discriminate.
  - pose proof (markers_of_length_le source). lia.
  - intros Hall. transitivity (length source); [|exact Hsrc].
    rewrite markers_of_length. f_equal.
    apply forallb_filter_id.
    apply forallb_forall. intros f Hin.
    assert (Hf : raises f = false).
    { destruct (raises f) eqn:E; [|reflexivity].
      assert (existsb raises (features data) = true).
      { apply existsb_exists. exists f. split; [|exact E].
        unfold source in Hin. now apply in_firstn, in_skipn in Hin. }
      congruence. }
    rewrite (makes_point_quiet f Hf).
    rewrite forallb_forall in Hall. exact (Hall f Hin).
Qed.

(** ** A load cycle *)

Lemma loadDistrict_result_summary (host : Host) (d : ShardDescriptor) (w : World) :
  resident w (code d) = false ->
  let w' := loadDistrict_result host d w in
  mapBounds w' = mapBounds w
  /\ mapZoom w' = mapZoom w
  /\ (districtState w' = districtState w
      \/ districtState w' = mark_loaded (code d) (districtState w))
  /\ exists new, history w' = history w ++ new /\ fetched new = [d].
Proof.
  intros Hres. unfold loadDistrict_result. rewrite Hres.
  destruct (shard_outcome host d w) as [data|e].
  - pose proof (ingest_events_shape chunkSize (features data) 0 [])
      as (_ & Hf & _).
    destruct (ingest_events chunkSize (features data) 0 [])
      as [es [remaining|e]]; cbn [fst] in Hf.
    + destruct (take_layers remaining) as [[]|e].
      * repeat split; auto.
        eexists. split; [reflexivity|].
        rewrite !fetched_app, Hf. now destruct (0 <? length remaining).
      * repeat split; auto.
        eexists. split; [reflexivity|]. now rewrite !fetched_app, Hf.
    + repeat split; auto.
      eexists. split; [reflexivity|]. now rewrite !fetched_app, Hf.
  - repeat split; auto. eexists. split; reflexivity.
Qed.

Lemma mark_loaded_fields (c : string) (s : DistrictState) :
  index (mark_loaded c s) = index s
  /\ isLoading (mark_loaded c s) = isLoading s
  /\ loadedDistricts (mark_loaded c s) = StringSet.add c (loadedDistricts s).
Proof. now repeat split. Qed.

Lemma run_load_each (host : Host) (idx : Catalog) (ds : list ShardDescriptor) :
  forall w,
    index (districtState w) = Some idx ->
    run host (load_each ds w)
    = (Normal tt, load_each_result host (length (districts idx)) ds w).
Proof.
  induction ds as [|d rest IH]; intros w Hidx; cbn [load_each load_each_result].
  - reflexivity.
  - run_steps. destruct (resident w (code d)) eqn:Hres; cbn [negb]; run_steps.
    + now apply IH.
    + rewrite run_loadDistrict. run_steps. unfold index_length. run_steps.
      destruct (loadDistrict_result_summary host d w Hres)
        as (_ & _ & Hstate & _).
      assert (Hidx' : index (districtState (loadDistrict_result host d w))
                      = Some idx).
      { destruct Hstate as [-> | ->]; [exact Hidx|].
        now rewrite (proj1 (mark_loaded_fields _ _)). }
      rewrite Hidx'. run_steps. apply IH. exact Hidx'.
Qed.

Lemma run_loadVisibleDistricts (host : Host) (w : World) :
  run host (loadVisibleDistricts w) = (Normal tt, cycle_result host w).
Proof.
  unfold loadVisibleDistricts, cycle_result. run_steps.
  destruct (isLoading (districtState w)); run_steps; [reflexivity|].
  destruct (index (districtState w)) as [idx|] eqn:Hidx.
  - rewrite (run_load_each host idx) by exact Hidx. now run_steps.
  - unfold getVisibleDistricts. cbn [districtState with_state index set_loading].
    rewrite Hidx. cbn [load_each load_each_result]. now run_steps.
Qed.

(** What the loop over the shards does, whatever the host answers: it
    leaves the index, the flag and the resident shards in place, and it
    asks for a shard exactly when the shard is not resident at its turn. *)
Lemma load_each_result_spec (host : Host) (total : nat)
  (ds : list ShardDescriptor) :
  forall w,
    let w' := load_each_result host total ds w in
    index (districtState w') = index (districtState w)
    /\ isLoading (districtState w') = isLoading (districtState w)
    /\ (forall c, resident w c = true -> resident w' c = true)
    /\ exists new,
         history w' = history w ++ new
         /\ (forall d', In d' (fetched new) ->
                        In d' ds /\ resident w (code d') = false)
         /\ (forall d, In d ds -> resident w (code d) = false ->
                       exists d', In d' (fetched new) /\ code d' = code d).
Proof.
  induction ds as [|d0 rest IH]; intros w; cbn [load_each_result].
  - repeat split; auto. exists []. rewrite app_nil_r.
    repeat split; intros; contradiction.
  - destruct (resident w (code d0)) eqn:Hres.
    + destruct (IH w) as (Hi & Hl & Hmono & new & Hh & Hf & Hall).
      repeat split; auto. exists new. repeat split; auto.
      * right. now apply Hf.
      * now apply Hf.
      * intros d [<-|Hin] Hd; [congruence|]. now apply Hall.
    + destruct (loadDistrict_result_summary host d0 w Hres)
        as (_ & _ & Hstate & new1 & Hh1 & Hf1).
      set (w1 := loadDistrict_result host d0 w) in *.
      assert (Hmono1 : forall c, resident w c = true ->
                                 resident (report total w1) c = true).
      { intros c Hc. unfold resident, report in *. cbn [districtState emit].
        destruct Hstate as [-> | ->]; [exact Hc|].
        rewrite (proj2 (proj2 (mark_loaded_fields _ _))).
        now apply has_add_mono. }
      assert (Hnew1 : forall c, resident (report total w1) c = true ->
                                resident w c = true \/ c = code d0).
      { intros c Hc. unfold resident, report in *. cbn [districtState emit] in Hc.
        destruct Hstate as [Hs | Hs]; rewrite Hs in Hc; [now left|].
        rewrite (proj2 (proj2 (mark_loaded_fields _ _))) in Hc.
        now apply has_add_inv in Hc. }
      destruct (IH (report total w1)) as (Hi & Hl & Hmono & new & Hh & Hf & Hall).
      repeat split.
      * rewrite Hi. unfold report. cbn [districtState emit].
        destruct Hstate as [-> | ->]; reflexivity.
      * rewrite Hl. unfold report. cbn [districtState emit].
        destruct Hstate as [-> | ->]; reflexivity.
      * auto.
      * exists (new1 ++ [Progress (StringSet.size
                                    (loadedDistricts (districtState w1))) total;
                         SetTimeout0] ++ new).
        repeat split.
        -- rewrite Hh. unfold report. cbn [history emit]. rewrite Hh1.
           now rewrite <- !app_assoc.
        -- rewrite !fetched_app, Hf1 in H. cbn [app fetched flat_map] in H.
           destruct H as [<-|H]; [now left|]. right. now apply Hf.
        -- rewrite !fetched_app, Hf1 in H. cbn [app fetched flat_map] in H.
           destruct H as [<-|H]; [exact Hres|].
           destruct (resident w (code d')) eqn:E; [|reflexivity].
           apply Hmono1 in E. apply Hf in H as [_ H]. congruence.
        -- intros d Hin Hd. rewrite !fetched_app, Hf1.
           cbn [app fetched flat_map].
           destruct Hin as [<-|Hin]; [exists d0; split; [now left|reflexivity]|].
           destruct (resident (report total w1) (code d)) eqn:E.
           ++ apply Hnew1 in E as [E|E]; [congruence|].
              exists d0. split; [now left|now symmetry].
           ++ destruct (Hall d Hin E) as (d' & Hd' & Hc).
              exists d'. split; [now right|exact Hc].
Qed.

Lemma cycle_result_spec (host : Host) (w : World) (idx : Catalog) :
  index (districtState w) = Some idx ->
  isLoading (districtState w) = false ->
  let w' := cycle_result host w in
  index (districtState w') = Some idx
  /\ isLoading (districtState w') = false
  /\ exists new,
       history w' = history w ++ new
       /\ forall d, In d (districts idx) -> resident w (code d) = false ->
                    exists d', In d' (fetched new) /\ code d' = code d.
Proof.
  intros Hidx Hflag. unfold cycle_result. rewrite Hflag, Hidx.
  set (w1 := with_state (set_loading true) w).
  assert (Hvis : getVisibleDistricts w1 = districts idx).
  { unfold getVisibleDistricts, w1.
    cbn [districtState with_state index set_loading]. rewrite Hidx.
    now destruct (PrimFloat.ltb _ _). }
  rewrite Hvis.
  destruct (load_each_result_spec host (length (districts idx))
              (districts idx) w1) as (Hi & _ & _ & new & Hh & _ & Hall).
  repeat split.
  - cbn [districtState with_state index set_loading]. rewrite Hi. exact Hidx.
  - exists new. split; [exact Hh|]. intros d Hin Hd. now apply Hall.
Qed.

(** A shard that the host serves, whenever it is asked, with no feature
    that raises, is resident when the loop over the shards ends. *)
Lemma load_each_result_served (host : Host) (total : nat) (c : string)
  (ds : list ShardDescriptor) :
  (forall d w, In d ds -> code d = c ->
     exists data, shard_outcome host d w = Normal data
                  /\ existsb raises (features data) = false) ->
  (exists d, In d ds /\ code d = c) ->
  forall w, resident (load_each_result host total ds w) c = true.
Proof.
  induction ds as [|d0 rest IH]; intros Hserve [d [Hin Hc]] w;
    [destruct Hin|]. cbn [load_each_result].
  assert (Hrest : forall d w, In d rest -> code d = c ->
            exists data, shard_outcome host d w = Normal data
                         /\ existsb raises (features data) = false)
    by (intros d' w' Hd'; apply Hserve; now right).
  destruct (String.eqb_spec (code d0) c) as [H0|H0].
  - destruct (resident w (code d0)) eqn:Hres.
    + apply (load_each_result_spec host total rest w). now rewrite <- H0.
    + destruct (Hserve d0 w (or_introl eq_refl) H0) as (data & Hout & Hr).
      destruct (loadDistrict_success host d0 w data Hres Hout Hr)
        as (es & remaining & _ & _ & Hw).
      rewrite run_loadDistrict in Hw. cbn [snd] in Hw.
      apply (load_each_result_spec host total rest
               (report total (loadDistrict_result host d0 w))).
      unfold resident, report. cbn [districtState emit]. rewrite Hw.
      cbn [districtState emit_all with_state].
      rewrite (proj2 (proj2 (mark_loaded_fields _ _))), <- H0. apply has_add.
  - assert (Hex : exists d, In d rest /\ code d = c).
    { destruct Hin as [<-|Hin]; [contradiction|]. now exists d. }
    destruct (resident w (code d0)); now apply IH.
Qed.



(** C5. When a shard is resident, a load cycle asks for no shard with its
    code, whatever the flag and whatever the host; and [loadDistrict] for
    it returns at once with the page state as it was.  In particular,
    after a load that made the shard resident, a second load leaves the
    page state, and so the number of render points, as the first left
    it. *)
Theorem resident_shards_are_not_requested :
  forall (host first second : Host) (w w0 : World) (d : ShardDescriptor),
    resident w (code d) = true ->
    let w1 := snd (run first (loadDistrict d w0)) in
    resident w1 (code d) = true ->
    (exists new,
       history (snd (run host (loadVisibleDistricts w))) = history w ++ new
       /\ forall d', In d' (fetched new) -> code d' <> code d)
    /\ loadDistrict d w = Done (Normal tt) w
    /\ (let w2 := snd (run second (loadDistrict d w1)) in
        w2 = w1
        /\ length (points (history w2)) = length (points (history w1))).
Proof.
  intros host first second w w0 d Hres w1 Hres1. split; [|split].
  - rewrite run_loadVisibleDistricts. cbn [snd]. unfold cycle_result.
    destruct (isLoading (districtState w)).
    + exists []. rewrite app_nil_r. split; [reflexivity|]. intros d' [].
    + set (wl := with_state (set_loading true) w).
      destruct (load_each_result_spec host
                  (match index (districtState w) with
                   | Some idx => length (districts idx)
                   | None => 0
                   end) (getVisibleDistricts wl) wl)
        as (_ & _ & _ & new & Hh & Hf & _).
      exists new. split; [exact Hh|].
      intros d' Hin Hcode. apply Hf in Hin as [_ Hin].
      unfold resident, wl in *. cbn [districtState with_state loadedDistricts
        set_loading] in Hin. congruence.
  - unfold loadDistrict, bind, read. cbn [bind_step]. now rewrite Hres.
  - assert (H : snd (run second (loadDistrict d w1)) = w1).
    { rewrite run_loadDistrict. cbn [snd]. unfold loadDistrict_result.
      now rewrite Hres1. }
    cbv zeta. now rewrite H.
Qed.

(** ** The re-entrancy guard *)

Lemma sustains_bind {A B} (Q1 Q2 : World -> Prop) (x : Step A) (f : A -> Async B) :
  sustains Q1 x ->
  (forall a w, Q1 w -> sustains Q2 (f a w)) ->
  (forall w, Q1 w -> Q2 w) ->
  sustains Q2 (bind_step x f).
Proof.
  intros Hx Hf HQ. induction x as [[a|e] w | wt w k IH]; cbn in *; auto.
  destruct Hx as [Hw Hk]. split; auto.
Qed.

Lemma sustains_catch {A} (Q : World -> Prop) (x : Step A) (h : Error -> Async A) :
  sustains Q x ->
  (forall e w, Q w -> sustains Q (h e w)) ->
  sustains Q (catch_step x h).
Proof.
  intros Hx Hh. induction x as [[a|e] w | wt w k IH]; cbn in *; auto.
  destruct Hx as [Hw Hk]. split; auto.
Qed.

Lemma sustains_weaken {A} (Q1 Q2 : World -> Prop) (x : Step A) :
  sustains Q1 x -> (forall w, Q1 w -> Q2 w) -> sustains Q2 x.
Proof.
  intros Hx HQ. induction x as [r w | wt w k IH]; cbn in *; auto.
  destruct Hx as [Hw Hk]. split; auto.
Qed.

Lemma flag_up_emit (e : Event) (w : World) : flag_up w -> flag_up (emit e w).
Proof. auto. Qed.

Lemma sustains_yieldToMain (w : World) :
  flag_up w -> sustains flag_up (yieldToMain w).
Proof. intros H. cbn. split; auto. Qed.

Lemma addLayers_done (batch : list Marker) (w : World) :
  addLayers batch w = Done (take_layers batch) (emit (AddLayers batch) w).
Proof.
  unfold addLayers, bind, modify. cbn [bind_step].
  now destruct (take_layers batch).
Qed.

Lemma sustains_ingest (chunk : nat) (feats : list Value) :
  forall i buffer w,
    flag_up w -> sustains flag_up (ingest chunk feats i buffer w).
Proof.
  induction feats as [|f rest IH]; intros i buffer w Hw; cbn [ingest].
  - exact Hw.
  - eapply sustains_bind with (Q1 := flag_up); auto.
    + destruct (convert_feature f); exact Hw.
    + intros buffer1 w1 Hw1.
      eapply sustains_bind with (Q1 := flag_up); auto.
      destruct ((0 <? i) && (i mod chunk =? 0)); [|exact Hw1].
      unfold bind at 1. rewrite addLayers_done.
      destruct (take_layers buffer1) as [[]|e]; cbn; [|exact Hw1].
      split; [exact Hw1|]. auto.
Qed.

Lemma sustains_loadDistrict (d : ShardDescriptor) (w : World) :
  flag_up w -> sustains flag_up (loadDistrict d w).
Proof.
  intros Hw. unfold loadDistrict, bind at 1, read. cbn [bind_step].
  destruct (resident w (code d)); [exact Hw|].
  unfold bind at 1, modify at 1. cbn [bind_step].
  apply sustains_catch; [|intros e w1 Hw1; exact Hw1].
  unfold bind at 1.
  eapply sustains_bind with (Q1 := flag_up); auto.
  - cbn. split; [exact Hw|]. intros [r|e] w1 Hw1; exact Hw1.
  - intros response w1 Hw1.
    destruct (negb (ok response)); [exact Hw1|].
    eapply sustains_bind with (Q1 := flag_up); auto.
    + cbn. split; [exact Hw1|]. intros [r|e] w2 Hw2; exact Hw2.
    + intros data w2 Hw2.
      eapply sustains_bind with (Q1 := flag_up); auto.
      * now apply sustains_ingest.
      * intros remaining w3 Hw3.
        destruct (0 <? length remaining); [|exact Hw3].
        unfold bind at 1. rewrite addLayers_done.
        destruct (take_layers remaining) as [[]|e]; exact Hw3.
Qed.

Lemma sustains_load_each (ds : list ShardDescriptor) :
  forall w, flag_up w -> sustains (fun _ => True) (load_each ds w).
Proof.
  induction ds as [|d rest IH]; intros w Hw; cbn [load_each].
  - exact I.
  - unfold bind at 1, read at 1. cbn [bind_step].
    eapply sustains_bind with (Q1 := flag_up); auto.
    destruct (resident w (code d)); cbn [negb]; [exact Hw|].
    eapply sustains_bind with (Q1 := flag_up); auto.
    + now apply sustains_loadDistrict.
    + intros _ w1 Hw1. unfold bind at 1, read at 1. cbn [bind_step].
      unfold index_length, bind at 1 2, read at 1. cbn [bind_step].
      destruct (index (districtState w1)); [|exact Hw1].
      cbn. split; auto.
Qed.

(** The flag is up at every suspension of a call of
    [loadVisibleDistricts]. *)
Lemma sustains_loadVisibleDistricts (w : World) :
  sustains (fun _ => True) (loadVisibleDistricts w).
Proof.
  unfold loadVisibleDistricts, bind at 1, read at 1. cbn [bind_step].
  destruct (isLoading (districtState w)); [exact I|].
  unfold bind at 1, modify at 1. cbn [bind_step].
  unfold bind at 1, read at 1. cbn [bind_step].
  eapply sustains_bind with (Q1 := fun _ => True); auto.
  now apply sustains_load_each.
Qed.

(** A call made while the flag is up returns at once and changes
    nothing. *)
Lemma guarded_call (w : World) :
  flag_up w -> loadVisibleDistricts w = Done (Normal tt) w.
Proof.
  intros Hw. unfold loadVisibleDistricts, bind, read. cbn [bind_step].
  now rewrite Hw.
Qed.

Lemma page_ok_after (x : Step unit) :
  sustains (fun _ => True) x -> page_ok (after x []).
Proof.
  destruct x as [r w | wt w k]; cbn; intros H.
  - now left.
  - right. destruct H as [Hw Hk]. split; [exact Hw|].
    eexists. split; [reflexivity|]. exact Hk.
Qed.

Lemma page_ok_turn (p q : Page) : page_ok p -> turn p q -> page_ok q.
Proof.
  intros Hp Hturn. destruct Hturn as [p b z | p | p before t later r Hc].
  - destruct Hp as [Hnone | (Hw & t & Hc & Hk)].
    + now left.
    + right. split; [exact Hw|]. now exists t.
  - destruct Hp as [Hnone | (Hw & t & Hc & Hk)].
    + rewrite Hnone. apply page_ok_after, sustains_loadVisibleDistricts.
    + rewrite (guarded_call (world p) Hw). cbn.
      right. split; [exact Hw|]. now exists t.
  - destruct Hp as [Hnone | (Hw & t0 & Hc0 & Hk)].
    + rewrite Hnone in Hc. now destruct before.
    + rewrite Hc0 in Hc.
      destruct before as [|t1 before].
      * injection Hc as <- <-. cbn [app]. apply page_ok_after. now apply Hk.
      * injection Hc as _ Hc. now destruct before.
Qed.

Lemma page_ok_reachable (p0 p : Page) :
  cycles p0 = [] -> reachable p0 p -> page_ok p.
Proof.
  intros H0 Hreach. induction Hreach as [|p q _ IH Hturn].
  - now left.
  - exact (page_ok_turn p q IH Hturn).
Qed.

(** C4. On every page the event loop can reach from one without a load
    cycle in progress: a call of [loadVisibleDistricts] made while the
    flag is up returns at once, without suspending, and leaves the page
    state, history included, as it was, so that it asks the network for
    nothing; at most one load cycle is in progress; and while one is, the
    flag is up, so that a further call leaves the page as it is. *)
Theorem reentrant_call_is_a_no_op :
  forall (p0 p : Page),
    cycles p0 = [] ->
    reachable p0 p ->
    (flag_up (world p) ->
     loadVisibleDistricts (world p) = Done (Normal tt) (world p))
    /\ length (cycles p) <= 1
    /\ (cycles p <> [] ->
        flag_up (world p)
        /\ after (loadVisibleDistricts (world p)) (cycles p) = p).
Proof.
  intros p0 p H0 Hreach.
  pose proof (page_ok_reachable p0 p H0 Hreach) as Hok.
  split; [apply guarded_call|].
  destruct Hok as [Hnone | (Hw & t & Hc & _)].
  - rewrite Hnone. split; [simpl; lia|]. now intros [].
  - rewrite Hc. split; [simpl; lia|]. intros _. split; [exact Hw|].
    rewrite (guarded_call (world p) Hw). cbn. rewrite <- Hc. now destruct p.
Qed.

(** ** Attribute resolution *)






(** ** The relevance policy *)

(** C9. Whatever the bounds and the zoom of the map, [getVisibleDistricts]
    returns the whole list of shard descriptors of the catalog, in catalog
    order; without a catalog it returns the empty list. *)
Theorem getVisibleDistricts_whole_catalog :
  forall (s : DistrictState) (b : Bounds) (z : float) (h : list Event),
    getVisibleDistricts
      {| districtState := s; mapBounds := b; mapZoom := z; history := h |}
    = match index s with
      | Some idx => districts idx
      | None => []
      end.
Proof.
  intros s b z h. unfold getVisibleDistricts. simpl.
  destruct (index s) as [idx|]; [|reflexivity].
  destruct (PrimFloat.ltb z 11); reflexivity.
Qed.

(** ** More on load cycles *)

Lemma resident_emit_all (es : list Event) (w : World) (c : string) :
  resident (emit_all es w) c = resident w c.
Proof. reflexivity. Qed.

Lemma resident_report (total : nat) (w : World) (c : string) :
  resident (report total w) c = resident w c.
Proof. reflexivity. Qed.

(** [loadDistrict] changes the residence of no other code than its own. *)
Lemma loadDistrict_result_other (host : Host) (d : ShardDescriptor) (w : World)
  (c : string) :
  c <> code d ->
  resident (loadDistrict_result host d w) c = resident w c.
Proof.
  intros Hc. destruct (resident w (code d)) eqn:Hres.
  - unfold loadDistrict_result. now rewrite Hres.
  - destruct (loadDistrict_result_summary host d w Hres) as (_ & _ & Hs & _).
    unfold resident. destruct Hs as [-> | ->]; [reflexivity|].
    rewrite (proj2 (proj2 (mark_loaded_fields _ _))).
    destruct (StringSet.has (loadedDistricts (districtState w)) c) eqn:E.
    + now apply has_add_mono.
    + destruct (StringSet.has (StringSet.add (code d) _) c) eqn:E'; [|reflexivity].
      apply has_add_inv in E' as [E'|E']; congruence.
Qed.

Lemma missing_ext (w w' : World) (ds : list ShardDescriptor) :
  (forall d, In d ds -> resident w' (code d) = resident w (code d)) ->
  missing w' ds = missing w ds.
Proof.
  intros H. unfold missing. apply filter_ext_in. intros d Hd. now rewrite H.
Qed.

(** The events of [loadDistrict] for a shard that is not resident: one
    request, for that shard, and no progress report. *)
Lemma loadDistrict_result_events (host : Host) (d : ShardDescriptor) (w : World) :
  resident w (code d) = false ->
  exists new,
    history (loadDistrict_result host d w) = history w ++ new
    /\ fetched new = [d]
    /\ filter is_progress new = [].
Proof.
  intros Hres. unfold loadDistrict_result. rewrite Hres.
  destruct (shard_outcome host d w) as [data|e].
  - pose proof (ingest_events_shape chunkSize (features data) 0 [])
      as (_ & Hf & _).
    pose proof (ingest_events_no_progress chunkSize (features data) 0 [])
      as (Hp & _).
    destruct (ingest_events chunkSize (features data) 0 [])
      as [es [remaining|e]]; cbn [fst] in Hf, Hp.
    + destruct (take_layers remaining) as [[]|e].
      * eexists. split; [reflexivity|].
        rewrite !fetched_app, !filter_app, Hf, Hp.
        now destruct (0 <? length remaining).
      * eexists. split; [reflexivity|].
        now rewrite !fetched_app, !filter_app, Hf, Hp.
    + eexists. split; [reflexivity|].
      now rewrite !fetched_app, !filter_app, Hf, Hp.
  - eexists. split; [reflexivity|]. now split.
Qed.

Lemma load_each_result_fetched (host : Host) (total : nat)
  (ds : list ShardDescriptor) :
  NoDup (map code ds) ->
  forall w, exists new,
    history (load_each_result host total ds w) = history w ++ new
    /\ fetched new = missing w ds
    /\ length (filter is_progress new) = length (missing w ds).
Proof.
  induction ds as [|d0 rest IH]; intros Hnd w; cbn [load_each_result].
  - exists []. now rewrite app_nil_r.
  - inversion Hnd as [|c cs Hnotin Hnd']; subst.
    unfold missing. cbn [filter]. fold (missing w rest).
    destruct (resident w (code d0)) eqn:Hres; cbn [negb].
    + apply (IH Hnd').
    + destruct (loadDistrict_result_events host d0 w Hres)
        as (new1 & Hh1 & Hf1 & Hp1).
      set (w1 := loadDistrict_result host d0 w) in *.
      destruct (IH Hnd' (report total w1)) as (new & Hh & Hf & Hp).
      assert (Hsame : missing (report total w1) rest = missing w rest).
      { apply missing_ext. intros d Hd. rewrite resident_report.
        apply loadDistrict_result_other. intros Heq. apply Hnotin.
        rewrite <- Heq. now apply in_map. }
      rewrite Hsame in Hf, Hp.
      exists (new1 ++ [Progress (StringSet.size
                                   (loadedDistricts (districtState w1))) total;
                        SetTimeout0] ++ new).
      split; [|split].
      * rewrite Hh. unfold report. cbn [history emit]. rewrite Hh1.
        now rewrite <- !app_assoc.
      * rewrite !fetched_app, Hf1, Hf. reflexivity.
      * rewrite !filter_app, !length_app, Hp, Hp1. reflexivity.
Qed.

Lemma getVisibleDistricts_index (w : World) (idx : Catalog) :
  index (districtState w) = Some idx -> getVisibleDistricts w = districts idx.
Proof.
  intros H. unfold getVisibleDistricts. rewrite H.
  now destruct (PrimFloat.ltb (mapZoom w) 11).
Qed.

(** X1. In a load cycle over a catalog whose codes are distinct, the
    shards asked for are the shards that were not resident when the cycle
    began, each once and in catalog order, and one progress report is
    written for each of them. *)
Theorem cycle_requests_missing_shards_in_order :
  forall (host : Host) (w : World) (idx : Catalog),
    index (districtState w) = Some idx ->
    isLoading (districtState w) = false ->
    NoDup (codes idx) ->
    exists new,
      history (snd (run host (loadVisibleDistricts w))) = history w ++ new
      /\ fetched new = missing w (districts idx)
      /\ length (filter is_progress new) = length (missing w (districts idx)).
Proof.
  intros host w idx Hidx Hflag Hnd.
  rewrite run_loadVisibleDistricts. cbn [snd]. unfold cycle_result.
  rewrite Hflag, Hidx.
  set (w1 := with_state (set_loading true) w).
  rewrite (getVisibleDistricts_index w1 idx) by exact Hidx.
  destruct (load_each_result_fetched host (length (districts idx))
              (districts idx) Hnd w1) as (new & Hh & Hf & Hp).
  exists new. split; [exact Hh|]. split; [exact Hf|exact Hp].
Qed.

Lemma load_each_all_resident (ds : list ShardDescriptor) (w : World) :
  (forall d, In d ds -> resident w (code d) = true) ->
  load_each ds w = Done (Normal tt) w.
Proof.
  induction ds as [|d rest IH]; intros H; cbn [load_each]; [reflexivity|].
  unfold bind at 1, read at 1. cbn [bind_step].
  rewrite (H d) by now left. cbn [negb]. unfold bind, ret. cbn [bind_step].
  apply IH. intros d' Hd'. apply H. now right.
Qed.

Lemma set_loading_round_trip (w : World) :
  isLoading (districtState w) = false ->
  with_state (set_loading false) (with_state (set_loading true) w) = w.
Proof.
  destruct w as [[i l dl f] b z h]. cbn. now intros ->.
Qed.

Lemma idle_call (w : World) :
  isLoading (districtState w) = false ->
  (forall d, In d (getVisibleDistricts w) -> resident w (code d) = true) ->
  loadVisibleDistricts w = Done (Normal tt) w.
Proof.
  intros Hflag Hall.
  unfold loadVisibleDistricts, bind at 1, read at 1. cbn [bind_step].
  rewrite Hflag. unfold bind at 1, modify at 1. cbn [bind_step].
  unfold bind at 1, read at 1. cbn [bind_step].
  unfold bind. rewrite load_each_all_resident by exact Hall.
  cbn [bind_step]. unfold modify.
  now rewrite set_loading_round_trip.
Qed.

(** X2. When the flag is down and every shard of the catalog is resident,
    a call of [loadVisibleDistricts] runs to its end without suspending
    and leaves the page state as it was: nothing is asked of the network,
    nothing is written, no timer is set. *)
Theorem nothing_to_load_returns_at_once :
  forall (w : World),
    isLoading (districtState w) = false ->
    (forall d, In d (getVisibleDistricts w) -> resident w (code d) = true) ->
    loadVisibleDistricts w = Done (Normal tt) w.
Proof.
  intros w Hflag Hall.
  unfold loadVisibleDistricts, bind at 1, read at 1. cbn [bind_step].
  rewrite Hflag. unfold bind at 1, modify at 1. cbn [bind_step].
  unfold bind at 1, read at 1. cbn [bind_step].
  unfold bind. rewrite load_each_all_resident by exact Hall.
  cbn [bind_step]. unfold modify.
  now rewrite set_loading_round_trip.
Qed.

Lemma load_each_result_success (host : Host) (total : nat)
  (all : list ShardDescriptor) (ds : list ShardDescriptor) :
  serves_all host all ->
  incl ds all ->
  forall w,
    (forall d, In d ds ->
               resident (load_each_result host total ds w) (code d) = true)
    /\ exists new,
         history (load_each_result host total ds w) = history w ++ new
         /\ filter is_error new = [].
Proof.
  intros Hserve. induction ds as [|d0 rest IH]; intros Hincl w;
    cbn [load_each_result].
  - split; [intros d []|]. exists []. now rewrite app_nil_r.
  - assert (Hrest : incl rest all) by (intros d Hd; apply Hincl; now right).
    destruct (resident w (code d0)) eqn:Hres.
    + destruct (IH Hrest w) as (Hall & new & Hh & He). split.
      * intros d [<-|Hd]; [|now apply Hall].
        now apply (load_each_result_spec host total rest w).
      * now exists new.
    + destruct (Hserve d0 w (Hincl d0 (or_introl eq_refl))) as (data & Hout & Hr).
      destruct (loadDistrict_success host d0 w data Hres Hout Hr)
        as (es & remaining & Hi & _ & Hw).
      rewrite run_loadDistrict in Hw. cbn [snd] in Hw.
      set (w1 := loadDistrict_result host d0 w) in *.
      destruct (IH Hrest (report total w1)) as (Hall & new & Hh & He). split.
      * intros d [<-|Hd]; [|now apply Hall].
        apply (load_each_result_spec host total rest (report total w1)).
        rewrite resident_report, Hw, resident_emit_all. unfold resident.
        cbn [districtState with_state].
        rewrite (proj2 (proj2 (mark_loaded_fields _ _))). apply has_add.
      * exists (loaded_events d0 data es remaining
                ++ [Progress (StringSet.size
                                (loadedDistricts (districtState w1))) total;
                    SetTimeout0] ++ new).
        split.
        -- rewrite Hh. unfold report. cbn [history emit]. rewrite Hw.
           cbn [history emit_all with_state]. now rewrite <- !app_assoc.
        -- rewrite !filter_app, He. unfold loaded_events.
           rewrite !filter_app.
           pose proof (ingest_events_no_progress chunkSize (features data) 0 [])
             as (_ & Hes).
           rewrite Hi in Hes. cbn [fst] in Hes. rewrite Hes.
           now destruct (0 <? length remaining).
Qed.

(** X3. When the host serves the collection of every shard of the catalog
    and no feature raises, one load cycle makes every shard of the catalog
    resident and writes no error on the console; the call of
    [loadVisibleDistricts] that follows has nothing to do and returns at
    once, leaving the page state as it is. *)
Theorem served_catalog_is_loaded_in_one_cycle :
  forall (host : Host) (w : World) (idx : Catalog),
    index (districtState w) = Some idx ->
    isLoading (districtState w) = false ->
    serves_all host (districts idx) ->
    let w' := snd (run host (loadVisibleDistricts w)) in
    (forall d, In d (districts idx) -> resident w' (code d) = true)
    /\ (exists new, history w' = history w ++ new /\ filter is_error new = [])
    /\ loadVisibleDistricts w' = Done (Normal tt) w'.
Proof.
  intros host w idx Hidx Hflag Hserve w'. subst w'.
  rewrite run_loadVisibleDistricts. cbn [snd].
  destruct (cycle_result_spec host w idx Hidx Hflag) as (Hidx' & Hflag' & _).
  assert (Hall : forall d, In d (districts idx) ->
                           resident (cycle_result host w) (code d) = true).
  { unfold cycle_result. rewrite Hflag, Hidx.
    set (w1 := with_state (set_loading true) w).
    rewrite (getVisibleDistricts_index w1 idx) by exact Hidx.
    apply (load_each_result_success host (length (districts idx))
             (districts idx) (districts idx) Hserve (incl_refl _) w1). }
  split; [exact Hall|]. split.
  - unfold cycle_result. rewrite Hflag, Hidx.
    set (w1 := with_state (set_loading true) w).
    rewrite (getVisibleDistricts_index w1 idx) by exact Hidx.
    destruct (load_each_result_success host (length (districts idx))
                (districts idx) (districts idx) Hserve (incl_refl _) w1)
      as (_ & new & Hh & He).
    now exists new.
  - apply idle_call; [exact Hflag'|].
    rewrite (getVisibleDistricts_index _ idx Hidx'). exact Hall.
Qed.

(** ** Invariants of the page state *)

Lemma upholds_bind {A B} (I Q1 Q2 : World -> Prop) (x : Step A) (f : A -> Async B) :
  upholds I Q1 x ->
  (forall a w, Q1 w -> upholds I Q2 (f a w)) ->
  (forall w, Q1 w -> Q2 w) ->
  upholds I Q2 (bind_step x f).
Proof.
  intros Hx Hf HQ. induction x as [[a|e] w | wt w k IH]; cbn in *; auto.
  destruct Hx as [Hw Hk]. split; auto.
Qed.

Lemma upholds_catch {A} (I Q : World -> Prop) (x : Step A) (h : Error -> Async A) :
  upholds I Q x ->
  (forall e w, Q w -> upholds I Q (h e w)) ->
  upholds I Q (catch_step x h).
Proof.
  intros Hx Hh. induction x as [[a|e] w | wt w k IH]; cbn in *; auto.
  destruct Hx as [Hw Hk]. split; auto.
Qed.

Lemma has_false_not_in (s : StringSet.t) (c : string) :
  StringSet.has s c = false -> ~ In c s.
Proof.
  unfold StringSet.has. intros H Hin.
  assert (existsb (String.eqb c) s = true).
  { apply existsb_exists. exists c. split; [exact Hin|apply String.eqb_refl]. }
  congruence.
Qed.

Lemma has_true_in (s : StringSet.t) (c : string) :
  StringSet.has s c = true -> In c s.
Proof.
  unfold StringSet.has. intros H. apply existsb_exists in H as (x & Hin & Hx).
  apply String.eqb_eq in Hx. now subst x.
Qed.

Section Settled.

Variable idx : Catalog.

Let J (w : World) : Prop := flag_up w /\ settled idx w.

Lemma settled_emit (e : Event) (w : World) :
  is_progress e = false -> settled idx w -> settled idx (emit e w).
Proof.
  intros He (Hi & Hn & Hc & Hp). repeat split; auto.
  - cbn [history emit] in H. apply in_app_or in H as [H|[H|[]]].
    + now apply Hp in H.
    + subst e. discriminate.
  - cbn [history emit] in H. apply in_app_or in H as [H|[H|[]]].
    + now apply Hp in H.
    + subst e. discriminate.
Qed.

Lemma J_emit (e : Event) (w : World) :
  is_progress e = false -> J w -> J (emit e w).
Proof. intros He [Hf Hs]. split; [exact Hf|now apply settled_emit]. Qed.

Lemma J_set_layer (c : string) (w : World) :
  J w -> J (with_state (set_layer c) w).
Proof. intros [Hf Hs]. split; [exact Hf|exact Hs]. Qed.

Lemma J_add_loaded (c : string) (w : World) :
  In c (codes idx) -> J w -> J (with_state (add_loaded c) w).
Proof.
  intros Hc [Hf (Hi & Hn & Hin & Hp)]. split; [exact Hf|].
  unfold settled. cbn [districtState with_state add_loaded index
    loadedDistricts history].
  split; [exact Hi|]. split; [|split; [|exact Hp]].
  - unfold StringSet.add.
    destruct (StringSet.has (loadedDistricts (districtState w)) c) eqn:E;
      [exact Hn|].
    apply NoDup_app; [exact Hn|repeat constructor; intros []|].
    intros x Hx [<-|[]]. now apply (has_false_not_in _ _ E).
  - unfold StringSet.add.
    destruct (StringSet.has (loadedDistricts (districtState w)) c);
      [exact Hin|].
    intros x Hx. apply in_app_or in Hx as [Hx|[<-|[]]]; auto.
Qed.

Lemma J_progress (w : World) :
  J w ->
  J (emit (Progress (StringSet.size (loadedDistricts (districtState w)))
                    (length (districts idx))) w).
Proof.
  intros [Hf (Hi & Hn & Hin & Hp)]. split; [exact Hf|].
  repeat split; auto.
  - cbn [history emit] in H. apply in_app_or in H as [H|[H|[]]].
    + now apply Hp in H.
    + injection H as <- <-. unfold StringSet.size.
      rewrite <- (length_map code (districts idx)).
      now apply NoDup_incl_length.
  - cbn [history emit] in H. apply in_app_or in H as [H|[H|[]]].
    + now apply Hp in H.
    + now injection H as _ <-.
Qed.

Lemma upholds_yieldToMain (w : World) : J w -> upholds J J (yieldToMain w).
Proof.
  intros H. cbn. split; [now apply J_emit|]. auto.
Qed.

Lemma upholds_ingest (chunk : nat) (feats : list Value) :
  forall i buffer w, J w -> upholds J J (ingest chunk feats i buffer w).
Proof.
  induction feats as [|f rest IH]; intros i buffer w Hw; cbn [ingest].
  - exact Hw.
  - eapply upholds_bind with (Q1 := J); auto.
    + destruct (convert_feature f); exact Hw.
    + intros buffer1 w1 Hw1.
      eapply upholds_bind with (Q1 := J); auto.
      destruct ((0 <? i) && (i mod chunk =? 0)); [|exact Hw1].
      unfold bind at 1. rewrite addLayers_done.
      destruct (take_layers buffer1) as [[]|e]; cbn; [|now apply J_emit].
      split; [now apply J_emit, J_emit|]. auto.
Qed.

Lemma upholds_loadDistrict (d : ShardDescriptor) (w : World) :
  In (code d) (codes idx) -> J w -> upholds J J (loadDistrict d w).
Proof.
  intros Hd Hw. unfold loadDistrict, bind at 1, read. cbn [bind_step].
  destruct (resident w (code d)); [exact Hw|].
  unfold bind at 1, modify at 1. cbn [bind_step].
  assert (Hw0 : J (emit (ConsoleLoading d) w)) by now apply J_emit.
  apply upholds_catch; [|intros e w1 Hw1; now apply J_emit].
  unfold bind at 1.
  eapply upholds_bind with (Q1 := J); auto.
  - cbn. split; [now apply J_emit|]. intros [r|e] w1 Hw1; exact Hw1.
  - intros response w1 Hw1.
    destruct (negb (ok response)); [exact Hw1|].
    eapply upholds_bind with (Q1 := J); auto.
    + cbn. split; [exact Hw1|]. intros [r|e] w2 Hw2; exact Hw2.
    + intros data w2 Hw2.
      eapply upholds_bind with (Q1 := J); auto.
      * now apply upholds_ingest.
      * intros remaining w3 Hw3.
        destruct (0 <? length remaining);
          [unfold bind at 1; rewrite addLayers_done;
           destruct (take_layers remaining) as [[]|e]|];
          cbn;
          repeat first [ apply J_emit; [reflexivity|]
                       | apply J_add_loaded; [exact Hd|]
                       | apply J_set_layer ];
          exact Hw3.
Qed.

Lemma upholds_load_each (ds : list ShardDescriptor) :
  incl ds (districts idx) ->
  forall w, J w -> upholds J J (load_each ds w).
Proof.
  induction ds as [|d rest IH]; intros Hincl w Hw; cbn [load_each].
  - exact Hw.
  - assert (Hrest : incl rest (districts idx))
      by (intros x Hx; apply Hincl; now right).
    unfold bind at 1, read at 1. cbn [bind_step].
    eapply upholds_bind with (Q1 := J); auto.
    destruct (resident w (code d)); cbn [negb]; [exact Hw|].
    eapply upholds_bind with (Q1 := J); auto.
    + apply upholds_loadDistrict; [|exact Hw].
      apply in_map, Hincl. now left.
    + intros _ w1 Hw1. unfold bind at 1, read at 1. cbn [bind_step].
      unfold index_length, bind at 1 2, read at 1. cbn [bind_step].
      destruct Hw1 as [Hf1 Hs1]. pose proof Hs1 as (Hi1 & _).
      rewrite Hi1. cbn.
      assert (HJ : J (emit (Progress
                              (StringSet.size (loadedDistricts (districtState w1)))
                              (length (districts idx))) w1))
        by (apply J_progress; now split).
      split; [now apply J_emit|]. auto.
Qed.

Lemma upholds_loadVisibleDistricts (w : World) :
  settled idx w -> upholds J (settled idx) (loadVisibleDistricts w).
Proof.
  intros Hs. unfold loadVisibleDistricts, bind at 1, read at 1. cbn [bind_step].
  destruct (isLoading (districtState w)) eqn:Hflag; [exact Hs|].
  unfold bind at 1, modify at 1. cbn [bind_step].
  unfold bind at 1, read at 1. cbn [bind_step].
  set (w1 := with_state (set_loading true) w).
  assert (Hw1 : J w1) by (split; [reflexivity|exact Hs]).
  eapply upholds_bind with (Q1 := J).
  - apply upholds_load_each; [|exact Hw1].
    rewrite (getVisibleDistricts_index w1 idx) by apply Hs.
    apply incl_refl.
  - intros _ w2 [_ Hs2]. exact Hs2.
  - intros w2 [_ Hs2]. exact Hs2.
Qed.

Lemma page_sound_after (x : Step unit) :
  upholds J (settled idx) x -> page_sound idx (after x []).
Proof.
  destruct x as [r w | wt w k]; cbn; intros H.
  - split; [exact H|now left].
  - destruct H as [[Hf Hs] Hk]. split; [exact Hs|]. right.
    split; [exact Hf|]. eexists. split; [reflexivity|]. exact Hk.
Qed.

Lemma page_sound_turn (p q : Page) :
  page_sound idx p -> turn p q -> page_sound idx q.
Proof.
  intros [Hs Hp] Hturn.
  destruct Hturn as [p b z | p | p before t later r Hc].
  - split; [exact Hs|]. destruct Hp as [Hnone | (Hw & t & Hc & Hk)].
    + now left.
    + right. split; [exact Hw|]. now exists t.
  - destruct Hp as [Hnone | (Hw & t & Hc & Hk)].
    + rewrite Hnone. now apply page_sound_after, upholds_loadVisibleDistricts.
    + rewrite (guarded_call (world p) Hw). cbn. split; [exact Hs|].
      right. split; [exact Hw|]. now exists t.
  - destruct Hp as [Hnone | (Hw & t0 & Hc0 & Hk)].
    + rewrite Hnone in Hc. now destruct before.
    + rewrite Hc0 in Hc. destruct before as [|t1 before].
      * injection Hc as <- <-. cbn [app]. apply page_sound_after.
        apply Hk. now split.
      * injection Hc as _ Hc. now destruct before.
Qed.

Lemma page_sound_reachable (b : Bounds) (z : float) (p : Page) :
  reachable (initial_page idx b z) p -> page_sound idx p.
Proof.
  intros Hreach. induction Hreach as [|p q _ IH Hturn].
  - split; [|now left]. split; [reflexivity|]. split; [constructor|].
    split; [intros c []|intros n m []].
  - exact (page_sound_turn p q IH Hturn).
Qed.

End Settled.

Lemma host_turn_is_turn (host : Host) (p : Page) : turn p (host_turn host p).
Proof.
  unfold host_turn. destruct (cycles p) as [|t later] eqn:Hc.
  - rewrite <- Hc. apply turn_call.
  - apply (turn_resume p [] t later). exact Hc.
Qed.

Lemma host_turns_reachable (host : Host) (p0 : Page) (n : nat) :
  reachable p0 (Nat.iter n (host_turn host) p0).
Proof.
  induction n as [|n IH]; cbn [Nat.iter].
  - apply reach_start.
  - eapply reach_turn; [exact IH|apply host_turn_is_turn].
Qed.

(** X4. On every page the event loop can reach from the page [initialize]
    leaves, the index is the catalog that was loaded and every resident
    code is the code of a shard of that catalog. *)
Theorem only_catalog_shards_become_resident :
  forall (idx : Catalog) (b : Bounds) (z : float) (p : Page),
    reachable (initial_page idx b z) p ->
    index (districtState (world p)) = Some idx
    /\ forall c, resident (world p) c = true ->
                 exists d, In d (districts idx) /\ code d = c.
Proof.
  intros idx b z p Hreach.
  destruct (page_sound_reachable idx b z p Hreach) as [(Hi & _ & Hin & _) _].
  split; [exact Hi|]. intros c Hres.
  apply has_true_in, Hin in Hres. unfold codes in Hres.
  apply in_map_iff in Hres as (d & Hd & Hind). now exists d.
Qed.

(** X5. On every page the event loop can reach from the page [initialize]
    leaves, each progress report written gives a count of resident shards
    that is at most the total it is set against, and that total is the
    number of entries of the catalog: the percentage shown never exceeds
    100. *)
Theorem progress_never_exceeds_total :
  forall (idx : Catalog) (b : Bounds) (z : float) (p : Page) (l t : nat),
    reachable (initial_page idx b z) p ->
    In (Progress l t) (history (world p)) ->
    l <= t /\ t = length (districts idx).
Proof.
  intros idx b z p l t Hreach Hin.
  destruct (page_sound_reachable idx b z p Hreach) as [(_ & _ & _ & Hp) _].
  now apply Hp.
Qed.

(** ** The marker cluster group *)

(** X7. The class of a cluster icon is decided by two thresholds: it is
    "large" above 1000 markers, "medium" above 100 and up to 1000, and
    "small" up to 100 (the test against 5000 changes nothing); and a
    cluster with more markers never gets a smaller class. *)
Theorem cluster_class_by_two_thresholds :
  forall (count more : Z),
    (count <= more)%Z ->
    (Cluster.sizeClass count = "large" <-> (1000 < count)%Z)
    /\ (Cluster.sizeClass count = "medium" <-> (100 < count <= 1000)%Z)
    /\ (Cluster.sizeClass count = "small" <-> (count <= 100)%Z)
    /\ Cluster.rank (Cluster.sizeClass count)
       <= Cluster.rank (Cluster.sizeClass more).
Proof.
  intros count more Hle. unfold Cluster.sizeClass.
  destruct (Z.gtb_spec count 5000), (Z.gtb_spec count 1000),
    (Z.gtb_spec count 100), (Z.gtb_spec more 5000), (Z.gtb_spec more 1000),
    (Z.gtb_spec more 100);
    try lia;
    (repeat split; try discriminate; try lia; try reflexivity;
     cbn; intros; try lia; try discriminate).
Qed.

Lemma cluster_class_by_two_thresholds_witness :
  (Cluster.sizeClass 6000 = "large" <-> (1000 < 6000)%Z)
  /\ (Cluster.sizeClass 6000 = "medium" <-> (100 < 6000 <= 1000)%Z)
  /\ (Cluster.sizeClass 6000 = "small" <-> (6000 <= 100)%Z)
  /\ Cluster.rank (Cluster.sizeClass 6000)
     <= Cluster.rank (Cluster.sizeClass 7000).
Proof.
  apply (cluster_class_by_two_thresholds 6000 7000). lia.
Defined.

Ltac cmp_cases :=
  repeat match goal with
  | H : context [Pos.compare_cont Eq ?x ?y] |- _ =>
      change (Pos.compare_cont Eq x y) with (Pos.compare x y) in H
  | |- context [Pos.compare_cont Eq ?x ?y] =>
      change (Pos.compare_cont Eq x y) with (Pos.compare x y)
  end;
  repeat match goal with
  | H : context [Z.compare ?x ?y] |- _ => destruct (Z.compare_spec x y)
  | |- context [Z.compare ?x ?y] => destruct (Z.compare_spec x y)
  | H : context [Pos.compare ?x ?y] |- _ => destruct (Pos.compare_spec x y)
  | |- context [Pos.compare ?x ?y] => destruct (Pos.compare_spec x y)
  end.

Lemma spec_le_lt_trans (a b c : SpecFloat.spec_float) :
  SpecFloat.SFleb a b = true ->
  SpecFloat.SFltb b c = true ->
  SpecFloat.SFltb a c = true.
Proof.
  unfold SpecFloat.SFleb, SpecFloat.SFltb.
  destruct a as [sa|sa| |sa ma ea], b as [sb|sb| |sb mb eb],
           c as [sc|sc| |sc mc ec];
    try destruct sa; try destruct sb; try destruct sc;
    cbn [SpecFloat.SFcompare]; try discriminate; try reflexivity;
    cmp_cases; cbn [CompOpp]; try discriminate; try reflexivity; try lia.
Qed.

Lemma float_le_lt_trans (x y z : float) :
  PrimFloat.leb x y = true ->
  PrimFloat.ltb y z = true ->
  PrimFloat.ltb x z = true.
Proof.
  rewrite FloatAxioms.leb_spec, !FloatAxioms.ltb_spec.
  apply spec_le_lt_trans.
Qed.

(** X8. The clustering radius never grows with the zoom: for two zoom
    levels in order (neither is NaN), the radius at the higher one is at
    most the radius at the lower one; and it is 120, 80 or 50. *)
Theorem cluster_radius_shrinks_with_zoom :
  forall (zoom zoom' : float),
    PrimFloat.leb zoom zoom' = true ->
    (Cluster.maxClusterRadius zoom' <= Cluster.maxClusterRadius zoom)%Z
    /\ In (Cluster.maxClusterRadius zoom) [120%Z; 80%Z; 50%Z].
Proof.
  intros zoom zoom' Hle. unfold Cluster.maxClusterRadius.
  destruct (PrimFloat.ltb zoom 13) eqn:H13.
  - split; [|now left].
    destruct (PrimFloat.ltb zoom' 13); [lia|].
    destruct (PrimFloat.ltb zoom' 15); lia.
  - destruct (PrimFloat.ltb zoom' 13) eqn:H13'.
    { rewrite (float_le_lt_trans zoom zoom' 13 Hle H13') in H13.
      discriminate. }
    destruct (PrimFloat.ltb zoom 15) eqn:H15.
    + split; [|right; now left].
      destruct (PrimFloat.ltb zoom' 15); lia.
    + destruct (PrimFloat.ltb zoom' 15) eqn:H15'.
      { rewrite (float_le_lt_trans zoom zoom' 15 Hle H15') in H15.
        discriminate. }
      split; [lia|right; right; now left].
Qed.

Lemma cluster_radius_shrinks_with_zoom_witness :
  (Cluster.maxClusterRadius 14.5 <= Cluster.maxClusterRadius 12)%Z
  /\ In (Cluster.maxClusterRadius 12) [120%Z; 80%Z; 50%Z].
Proof.
  apply (cluster_radius_shrinks_with_zoom 12%float 14.5%float). reflexivity.
Defined.

(** ** The popup of a tree *)

Lemma or_falsy (a b : Value) : truthy a = false -> JS.or a b = b.
Proof. unfold JS.or. now intros ->. Qed.

(** X9. When none of the keys the click handler probes holds a truthy
    value (the attributes are missing, or [null], zero or empty), the
    popup is the same whatever else the feature carries: the species reads
    "Especie desconocida", the diameter and the height "N/A", and there is
    no line for the common name, the district or the neighbourhood. *)
Theorem popup_without_attributes :
  forall (nts : float -> string) (props : Value),
    (forall k, In k attribute_keys -> truthy (member props k) = false) ->
    popupContent nts props = bare_popup.
Proof.
  intros nts props H. unfold popupContent, tree_info.
  repeat match goal with
  | |- context [member props ?k] =>
      let E := fresh "E" in
      assert (E : truthy (member props k) = false)
        by (apply H; unfold attribute_keys; simpl; tauto);
      generalize dependent (member props k); intros
  end.
  repeat match goal with
  | E : truthy ?v = false |- context [JS.or ?v ?b] => rewrite (or_falsy v b E)
  end.
  repeat match goal with
  | E : truthy ?v = false |- context [truthy ?v] => rewrite E
  end.
  reflexivity.
Qed.

Lemma popup_without_attributes_witness :
  popupContent (fun _ => "") (Object [("d", Number 0%float); ("sn", Str "")])
  = bare_popup.
Proof.
  apply popup_without_attributes.
  intros k Hk. unfold attribute_keys in Hk. simpl in Hk.
  repeat (destruct Hk as [<-|Hk]; [reflexivity|]). contradiction.
Defined.

(** X10. The short and the long keys are interchangeable: a feature that
    gives its six attributes under the short keys, one that gives them
    under the long keys, and one that gives the species and the common
    name under their third keys, get the same popup. *)
Theorem popup_is_the_same_under_short_and_long_keys :
  forall (nts : float -> string) (sn cn d h dt nb : Value),
    let short := Object [("sn", sn); ("cn", cn); ("d", d); ("h", h);
                         ("dt", dt); ("nb", nb)] in
    let long := Object [("species", sn); ("common_name", cn);
                        ("diameter", d); ("height", h);
                        ("NBRE_DTO", dt); ("NBRE_BARRI", nb)] in
    let third := Object [("Nombre científico", sn); ("CODIGO_ESP", cn);
                         ("diameter", d); ("height", h);
                         ("NBRE_DTO", dt); ("NBRE_BARRI", nb)] in
    popupContent nts short = popupContent nts long
    /\ popupContent nts long = popupContent nts third.
Proof.
  intros nts sn cn d h dt nb short long third.
  unfold popupContent.
  assert (H1 : tree_info nts short = tree_info nts long).
  { unfold tree_info, short, long, JS.or. cbn.
    destruct (truthy sn) eqn:Esn, (truthy cn) eqn:Ecn, (truthy d) eqn:Ed,
      (truthy h) eqn:Eh, (truthy dt) eqn:Edt, (truthy nb) eqn:Enb;
      cbn; rewrite ?Esn, ?Ecn, ?Ed, ?Eh, ?Edt, ?Enb; reflexivity. }
  assert (H2 : tree_info nts long = tree_info nts third).
  { unfold tree_info, long, third, JS.or. cbn.
    destruct (truthy sn) eqn:Esn, (truthy cn) eqn:Ecn, (truthy d) eqn:Ed,
      (truthy h) eqn:Eh, (truthy dt) eqn:Edt, (truthy nb) eqn:Enb;
      cbn; rewrite ?Esn, ?Ecn, ?Ed, ?Eh, ?Edt, ?Enb; reflexivity. }
  now rewrite H1, H2.
Qed.

(** ** The information button *)

Lemma clicks_app (cs1 cs2 : list Info.Click) (s : bool) :
  Info.clicks (cs1 ++ cs2) s = Info.clicks cs2 (Info.clicks cs1 s).
Proof. apply fold_left_app. Qed.

Lemma clicks_on_button (bs : list Info.Click) :
  Forall (fun c => Info.inButton c = true) bs ->
  forall s, Info.clicks bs s = xorb s (Nat.odd (length bs)).
Proof.
  induction 1 as [|c bs Hc _ IH]; intros s.
  - cbn. now rewrite xorb_false_r.
  - change (Info.clicks (c :: bs) s) with (Info.clicks bs (Info.click c s)).
    rewrite IH. unfold Info.click. rewrite Hc.
    cbn [length]. rewrite Nat.odd_succ, <- Nat.negb_odd.
    now destruct s, (Nat.odd (length bs)).
Qed.

(** X11. The information popup: after a click that lands outside the
    button and the popup, a run of clicks on the button leaves the popup
    shown exactly when their number is odd, whatever was clicked before;
    and a click inside the popup changes nothing. *)
Theorem info_popup_follows_the_clicks :
  forall (before buttons rest : list Info.Click) (shown : bool),
    Forall (fun c => Info.inButton c = true) buttons ->
    Info.clicks (before ++ Info.elsewhere :: buttons) shown
    = Nat.odd (length buttons)
    /\ Info.clicks (before ++ Info.in_popup :: rest) shown
       = Info.clicks (before ++ rest) shown.
Proof.
  intros before buttons rest shown Hb. split.
  - rewrite clicks_app.
    change (Info.clicks (Info.elsewhere :: buttons) (Info.clicks before shown))
      with (Info.clicks buttons false).
    now rewrite (clicks_on_button buttons Hb).
  - rewrite !clicks_app. reflexivity.
Qed.

Lemma info_popup_follows_the_clicks_witness :
  Info.clicks ([Info.on_button] ++ Info.elsewhere
               :: [Info.on_button; Info.on_button; Info.on_button]) false
  = Nat.odd (length [Info.on_button; Info.on_button; Info.on_button])
  /\ Info.clicks ([Info.on_button] ++ Info.in_popup :: [Info.on_button]) false
     = Info.clicks ([Info.on_button] ++ [Info.on_button]) false.
Proof.
  apply (info_popup_follows_the_clicks [Info.on_button]
           [Info.on_button; Info.on_button; Info.on_button]
           [Info.on_button] false).
  repeat constructor.
Defined.

(** ** The performance indicator *)

Lemma remove_id_singleton (id : nat) : Indicator.remove_id id [id] = [].
Proof. unfold Indicator.remove_id. cbn. now rewrite Nat.eqb_refl. Qed.

Lemma indicator_invariant (shown0 : bool) (es : list Indicator.Event) :
  let s := indicator_after shown0 es in
  (Indicator.pending s = []
   /\ (existsb is_update es = true -> Indicator.shown s = false))
  \/ (Indicator.pending s = [pred (Indicator.next_id s)]
      /\ Indicator.hideTimeout s = Some (pred (Indicator.next_id s))
      /\ Indicator.shown s = true).
Proof.
  induction es as [|e es IH] using rev_ind; cbv zeta in *.
  - left. split; [reflexivity|discriminate].
  - unfold indicator_after in *. rewrite fold_left_app. cbn [fold_left].
    set (s := fold_left Indicator.step es (Indicator.initial shown0)) in *.
    rewrite existsb_app. destruct e as [hasText n|id]; cbn [Indicator.step].
    + right. unfold Indicator.update.
      cbn [Indicator.pending Indicator.hideTimeout Indicator.shown
           Indicator.next_id pred].
      destruct IH as [(Hp & _) | (Hp & Hh & _)]; rewrite Hp.
      * destruct (Indicator.hideTimeout s); now repeat split.
      * rewrite Hh. cbn [Indicator.clearTimeout].
        rewrite remove_id_singleton. now repeat split.
    + unfold Indicator.fire.
      destruct IH as [(Hp & Hs) | (Hp & Hh & Hs)]; rewrite Hp.
      * cbn [existsb]. left. split; [exact Hp|].
        cbn [existsb is_update]. rewrite !orb_false_r. exact Hs.
      * cbn [existsb]. rewrite orb_false_r.
        destruct (Nat.eqb_spec id (pred (Indicator.next_id s))) as [->|Hne].
        -- left. cbn [Indicator.pending Indicator.shown].
           rewrite remove_id_singleton. now split.
        -- right. now repeat split.
Qed.

(** X12. The performance indicator is hidden by the last timer only:
    whatever updates and timers follow one another, at most one timer to
    hide the indicator is pending, it is the one [hideTimeout] names, and
    the indicator is shown while it is pending; and once an update has
    happened the indicator is shown only while such a timer is pending, so
    that it never stays on the screen for good. *)
Theorem indicator_is_hidden_by_the_last_timer :
  forall (shown0 : bool) (es : list Indicator.Event) (id : nat),
    let s := indicator_after shown0 es in
    length (Indicator.pending s) <= 1
    /\ (In id (Indicator.pending s) ->
        Indicator.hideTimeout s = Some id /\ Indicator.shown s = true)
    /\ (existsb is_update es = true ->
        (Indicator.shown s = true <-> Indicator.pending s <> [])).
Proof.
  intros shown0 es id s.
  destruct (indicator_invariant shown0 es) as [(Hp & Hs) | (Hp & Hh & Hs)];
    fold s in Hp, Hs |- *; try fold s in Hh; rewrite Hp.
  - split; [cbn; lia|]. split; [intros []|].
    intros Hu. rewrite (Hs Hu). split; [discriminate|now intros []].
  - split; [cbn; lia|]. split.
    + intros [<-|[]]. now split.
    + intros _. rewrite Hs. split; [discriminate|reflexivity].
Qed.

Lemma indicator_is_hidden_by_the_last_timer_witness :
  let s := indicator_after false
             [Indicator.Update true 120; Indicator.Update true 80;
              Indicator.Fire 0] in
  length (Indicator.pending s) <= 1
  /\ (In 1 (Indicator.pending s) ->
      Indicator.hideTimeout s = Some 1 /\ Indicator.shown s = true)
  /\ (existsb is_update [Indicator.Update true 120; Indicator.Update true 80;
                         Indicator.Fire 0] = true ->
      (Indicator.shown s = true <-> Indicator.pending s <> [])).
Proof.
  apply (indicator_is_hidden_by_the_last_timer false
           [Indicator.Update true 120; Indicator.Update true 80;
            Indicator.Fire 0] 1).
Defined.

(** ** The start of the page *)

Lemma page_of_settle_cycle (first : bool) (x : Step unit)
  (others : list (bool * Suspended)) (base : Session) :
  page_of (settle_cycle first x others base) = after x (map snd others).
Proof.
  destruct x as [r w | wt w k]; unfold page_of; cbn; [reflexivity|].
  now rewrite map_app.
Qed.

(** A turn of the session is a turn of the event loop of the loader, or
    leaves its page as it is. *)
Lemma session_turn_page (s s' : Session) :
  session_turn s s' -> turn (page_of s) (page_of s') \/ page_of s' = page_of s.
Proof.
  intros [s0 b z | s0 | s0 before first t later r Hrun].
  - left. apply (turn_move (page_of s0) b z).
  - destruct (listening s0); [|now right]. left.
    rewrite page_of_settle_cycle. apply (turn_call (page_of s0)).
  - left. rewrite page_of_settle_cycle, map_app.
    apply (turn_resume (page_of s0) (map snd before) t (map snd later) r).
    unfold page_of. cbn [cycles]. now rewrite Hrun, map_app.
Qed.

Lemma initialize_failure (hasIndicator : bool) (a : IndexAnswers)
  (b : Bounds) (z : float) (e : Error) :
  index_delivery a = Abrupt e ->
  initialize hasIndicator a b z
  = {| sworld := fresh_world b z;
       running := [];
       listening := false;
       ui := [MarkersAdded; LoadingText "Cargando árboles...";
              ProgressText "Preparando datos...";
              IndexFetch index_url; ConsoleIndexError e]
             ++ showError "No se pudo cargar el índice de distritos"
             ++ showError "No se pudo inicializar el mapa"
             ++ hideLoading |}.
Proof.
  intros H. unfold initialize, loadDistrictIndex. rewrite H. reflexivity.
Qed.

Lemma initialize_success (hasIndicator : bool) (a : IndexAnswers)
  (b : Bounds) (z : float) (idx : Catalog) :
  index_outcome a = Normal idx ->
  exists message,
    index_message idx = Normal message
    /\ initialize hasIndicator a b z
       = settle_cycle true (loadVisibleDistricts (initial_world idx b z)) []
           {| sworld := initial_world idx b z;
              running := [];
              listening := true;
              ui := [MarkersAdded; LoadingText "Cargando árboles...";
                     ProgressText "Preparando datos...";
                     IndexFetch index_url; message; Listening]
                    ++ setupPerformanceMonitoring hasIndicator
                    ++ [ConsoleReady] |}.
Proof.
  unfold index_outcome, initialize, loadDistrictIndex.
  destruct (index_delivery a) as [idx'|e]; [|discriminate].
  destruct (index_message idx') as [message|e] eqn:Hm; [|discriminate].
  intros [= <-]. exists message. split; [exact Hm|reflexivity].
Qed.

(** X13. A failure of the index is final.  When the fetch of the index is
    rejected, answers with a status that is not ok, or its body does not
    parse, [initialize] shows the two error banners, hides the overlay and
    registers no listener; from then on, whatever the user does with the
    map, no load cycle is ever started, no shard is ever asked for, and
    the index stays empty. *)
Theorem index_failure_is_final :
  forall (hasIndicator : bool) (a : IndexAnswers) (b : Bounds) (z : float)
         (e : Error) (s : Session),
    index_delivery a = Abrupt e ->
    session_reachable (initialize hasIndicator a b z) s ->
    running s = []
    /\ listening s = false
    /\ districtState (sworld s) = districtState (fresh_world b z)
    /\ history (sworld s) = []
    /\ ui s = [MarkersAdded; LoadingText "Cargando árboles...";
               ProgressText "Preparando datos...";
               IndexFetch index_url; ConsoleIndexError e;
               OverlayHidden;
               ErrorShown "No se pudo cargar el índice de distritos";
               SetTimeout
                 (RemoveError "No se pudo cargar el índice de distritos") 5000;
               OverlayHidden;
               ErrorShown "No se pudo inicializar el mapa";
               SetTimeout (RemoveError "No se pudo inicializar el mapa") 5000;
               SetTimeout HideOverlay 500].
Proof.
  intros hasIndicator a b z e s Hfail Hreach.
  rewrite (initialize_failure hasIndicator a b z e Hfail) in Hreach.
  induction Hreach as [|s s' _ IH Hturn].
  - now repeat split.
  - destruct IH as (Hrun & Hl & Hd & Hh & Hu).
    destruct Hturn as [s b' z' | s | s before first t later r Hc].
    + now repeat split.
    + rewrite Hl. now repeat split.
    + rewrite Hrun in Hc. now destruct before.
Qed.

(** X20. An index without its count of trees is a failure too, though of
    another kind.  When the index is fetched and parsed but holds no count
    of trees, [loadDistrictIndex] has stored it by the time the message
    that reads the count throws; it reports the failure all the same, and
    [initialize] shows the two error banners, hides the overlay and
    registers no listener.  From then on the index is in place, but no
    load cycle is ever started and no shard is ever asked for. *)
Theorem index_without_count_is_a_failure :
  forall (hasIndicator : bool) (a : IndexAnswers) (b : Bounds) (z : float)
         (idx : Catalog) (s : Session),
    index_delivery a = Normal idx ->
    total_trees idx = None ->
    session_reachable (initialize hasIndicator a b z) s ->
    running s = []
    /\ listening s = false
    /\ districtState (sworld s)
       = set_index idx (districtState (fresh_world b z))
    /\ history (sworld s) = []
    /\ ui s = [MarkersAdded; LoadingText "Cargando árboles...";
               ProgressText "Preparando datos...";
               IndexFetch index_url; ConsoleIndexError TypeError;
               OverlayHidden;
               ErrorShown "No se pudo cargar el índice de distritos";
               SetTimeout
                 (RemoveError "No se pudo cargar el índice de distritos") 5000;
               OverlayHidden;
               ErrorShown "No se pudo inicializar el mapa";
               SetTimeout (RemoveError "No se pudo inicializar el mapa") 5000;
               SetTimeout HideOverlay 500].
Proof.
  intros hasIndicator a b z idx s Hdel Hnone Hreach.
  unfold initialize, loadDistrictIndex, index_message in Hreach.
  rewrite Hdel, Hnone in Hreach. cbn [negb] in Hreach.
  induction Hreach as [|s s' _ IH Hturn].
  - now repeat split.
  - destruct IH as (Hrun & Hl & Hd & Hh & Hu).
    destruct Hturn as [s b' z' | s | s before first t later r Hc].
    + now repeat split.
    + rewrite Hl. now repeat split.
    + rewrite Hrun in Hc. now destruct before.
Qed.

Lemma session_page_reachable (p0 : Page) (s0 s : Session) :
  reachable p0 (page_of s0) ->
  session_reachable s0 s ->
  reachable p0 (page_of s).
Proof.
  intros H0 Hreach. induction Hreach as [|s s' _ IH Hturn]; [exact H0|].
  destruct (session_turn_page s s' Hturn) as [Ht | ->]; [|exact IH].
  exact (reach_turn IH Ht).
Qed.

Lemma listening_kept (s0 s : Session) :
  session_reachable s0 s -> listening s = listening s0.
Proof.
  induction 1 as [|s s' _ IH Hturn]; [reflexivity|].
  rewrite <- IH.
  destruct Hturn as [s b z | s | s before first t later r Hc].
  - reflexivity.
  - destruct (listening s) eqn:E; [|exact E].
    destruct (loadVisibleDistricts (sworld s)); exact E.
  - now destruct (resume t r (sworld s)).
Qed.

(** X14. When the index is loaded, [initialize] stores it, starts the
    first load cycle and registers the listener of the map; every state
    the page goes through afterwards is a state of the event loop of the
    loader started on that index, so that at most one load cycle is in
    progress at any time, the index stays the one that was loaded and
    only shards of the catalog become resident. *)
Theorem session_follows_the_event_loop :
  forall (hasIndicator : bool) (a : IndexAnswers) (b : Bounds) (z : float)
         (idx : Catalog) (s : Session),
    index_outcome a = Normal idx ->
    session_reachable (initialize hasIndicator a b z) s ->
    reachable (initial_page idx b z) (page_of s)
    /\ listening s = true
    /\ length (running s) <= 1
    /\ index (districtState (sworld s)) = Some idx
    /\ incl (loadedDistricts (districtState (sworld s))) (codes idx).
Proof.
  intros hasIndicator a b z idx s Hok Hreach.
  destruct (initialize_success hasIndicator a b z idx Hok)
    as (message & _ & Hinit).
  assert (Hpage : reachable (initial_page idx b z) (page_of s)).
  { apply (session_page_reachable _ (initialize hasIndicator a b z)); auto.
    rewrite Hinit.
    rewrite page_of_settle_cycle.
    eapply reach_turn; [apply reach_start|].
    apply (turn_call (initial_page idx b z)). }
  split; [exact Hpage|]. split.
  - rewrite (listening_kept _ s Hreach), Hinit.
    now destruct (loadVisibleDistricts (initial_world idx b z)).
  - destruct (page_sound_reachable idx b z _ Hpage) as [(Hi & _ & Hin & _) _].
    pose proof (page_ok_reachable (initial_page idx b z) _ eq_refl Hpage) as Hok'.
    split; [|split; [exact Hi|exact Hin]].
    rewrite <- (length_map snd (running s)).
    change (map snd (running s)) with (cycles (page_of s)).
    destruct Hok' as [-> | (_ & t & -> & _)]; cbn; lia.
Qed.

Lemma settle_cycle_counts (first : bool) (x : Step unit)
  (others : list (bool * Suspended)) (base : Session) :
  let s' := settle_cycle first x others base in
  length (first_cycles s') + length (filter is_overlay_timer (ui s'))
  <= length (filter fst others) + (if first then 1 else 0)
     + length (filter is_overlay_timer (ui base))
  /\ filter is_banner (ui s') = filter is_banner (ui base).
Proof.
  destruct x as [r w | wt w k]; unfold first_cycles; cbn [settle_cycle running ui].
  - rewrite !filter_app, length_app.
    destruct first; [destruct r|]; cbn; rewrite ?app_nil_r; split;
      reflexivity || lia.
  - rewrite filter_app, length_app. destruct first; cbn; split;
      reflexivity || lia.
Qed.

(** X15. After the index is loaded, the timer that hides the loading
    overlay is set at most once, and not while the load cycle started by
    [initialize] is still in progress; and no error banner is ever shown,
    however many shards fail. *)
Theorem overlay_is_hidden_once_after_the_first_cycle :
  forall (hasIndicator : bool) (a : IndexAnswers) (b : Bounds) (z : float)
         (idx : Catalog) (s : Session),
    index_outcome a = Normal idx ->
    session_reachable (initialize hasIndicator a b z) s ->
    length (first_cycles s) + length (filter is_overlay_timer (ui s)) <= 1
    /\ filter is_banner (ui s) = [].
Proof.
  intros hasIndicator a b z idx s Hok Hreach.
  destruct (initialize_success hasIndicator a b z idx Hok)
    as (message & Hm & Hinit).
  unfold index_message in Hm. destruct (total_trees idx); [|discriminate].
  injection Hm as <-. rewrite Hinit in Hreach.
  induction Hreach as [|s s' _ IH Hturn].
  - match goal with
    | |- context [settle_cycle true ?x [] ?base] =>
        destruct (settle_cycle_counts true x [] base) as [Hc Hb]
    end.
    split.
    + eapply Nat.le_trans; [exact Hc|]. destruct hasIndicator; cbn; lia.
    + rewrite Hb. now destruct hasIndicator.
  - destruct IH as [Hc Hb].
    destruct Hturn as [s b' z' | s | s before first t later r Hrun].
    + split; [exact Hc|exact Hb].
    + destruct (listening s); [|split; [exact Hc|exact Hb]].
      destruct (settle_cycle_counts false (loadVisibleDistricts (sworld s))
                  (running s) s) as [Hc' Hb'].
      split; [|now rewrite Hb'].
      eapply Nat.le_trans; [exact Hc'|]. unfold first_cycles in Hc. lia.
    + destruct (settle_cycle_counts first (resume t r (sworld s))
                  (before ++ later) s) as [Hc' Hb'].
      split; [|now rewrite Hb'].
      eapply Nat.le_trans; [exact Hc'|]. unfold first_cycles in Hc.
      rewrite Hrun, filter_app, length_app in Hc. cbn [filter fst] in Hc.
      rewrite filter_app, length_app.
      destruct first; cbn [length] in Hc; lia.
Qed.

(** ** The flag and the load cycle *)

Lemma ensures_bind {A B} (I : World -> Prop)
  (Q1 : Completion A -> World -> Prop) (Q2 : Completion B -> World -> Prop)
  (x : Step A) (f : A -> Async B) :
  ensures I Q1 x ->
  (forall a w, Q1 (Normal a) w -> ensures I Q2 (f a w)) ->
  (forall e w, Q1 (Abrupt e) w -> Q2 (Abrupt e) w) ->
  ensures I Q2 (bind_step x f).
Proof.
  intros Hx Hf HQ. induction x as [[a|e] w | wt w k IH]; cbn in *; auto.
  destruct Hx as [Hw Hk]. split; auto.
Qed.

Lemma ensures_catch {A} (I : World -> Prop)
  (Q1 Q2 : Completion A -> World -> Prop) (x : Step A) (h : Error -> Async A) :
  ensures I Q1 x ->
  (forall a w, Q1 (Normal a) w -> Q2 (Normal a) w) ->
  (forall e w, Q1 (Abrupt e) w -> ensures I Q2 (h e w)) ->
  ensures I Q2 (catch_step x h).
Proof.
  intros Hx HQ Hh. induction x as [[a|e] w | wt w k IH]; cbn in *; auto.
  destruct Hx as [Hw Hk]. split; auto.
Qed.

Lemma ensures_of_upholds {A} (I Q : World -> Prop) (x : Step A) :
  upholds I Q x -> ensures I (fun _ w => Q w) x.
Proof.
  induction x as [r w | wt w k IH]; cbn; auto.
  intros [Hw Hk]. split; auto.
Qed.

Section Live.

Variable idx : Catalog.

Let J (w : World) : Prop := flag_up w /\ settled idx w.

Let done (r : Completion unit) (w : World) : Prop := J w /\ r = Normal tt.

(** What [loadDistrict] tries. *)
Lemma upholds_loadDistrict_try (d : ShardDescriptor) (w : World) :
  In (code d) (codes idx) ->
  J w ->
  upholds J J
    ((response <- fetch d ;;
      if negb (ok response) then throw (HttpError (status response))
      else
        data <- json response ;;
        districtMarkers <- ingest chunkSize (features data) 0 [] ;;
        (if 0 <? length districtMarkers
         then addLayers districtMarkers else ret tt) ;;
        modify (with_state (set_layer (code d))) ;;
        modify (fun w => emit (MarkLoaded (code d))
                           (with_state (add_loaded (code d)) w)) ;;
        modify (emit (ConsoleLoaded (code d) (length (features data))))) w).
Proof.
  intros Hd Hw. unfold bind at 1.
  eapply upholds_bind with (Q1 := J); auto.
  - cbn. split; [now apply J_emit|]. intros [r|e] w1 Hw1; exact Hw1.
  - intros response w1 Hw1.
    destruct (negb (ok response)); [exact Hw1|].
    eapply upholds_bind with (Q1 := J); auto.
    + cbn. split; [exact Hw1|]. intros [r|e] w2 Hw2; exact Hw2.
    + intros data w2 Hw2.
      eapply upholds_bind with (Q1 := J); auto.
      * now apply upholds_ingest.
      * intros remaining w3 Hw3.
        destruct (0 <? length remaining);
          [unfold bind at 1; rewrite addLayers_done;
           destruct (take_layers remaining) as [[]|e]|];
          cbn;
          repeat first [ apply J_emit; [reflexivity|]
                       | apply J_add_loaded; [exact Hd|]
                       | apply J_set_layer ];
          exact Hw3.
Qed.

(** No exception leaves [loadDistrict]. *)
Lemma ensures_loadDistrict (d : ShardDescriptor) (w : World) :
  In (code d) (codes idx) -> J w -> ensures J done (loadDistrict d w).
Proof.
  intros Hd Hw. unfold loadDistrict, bind at 1, read. cbn [bind_step].
  destruct (resident w (code d)); [now split|].
  unfold bind at 1, modify at 1. cbn [bind_step].
  assert (Hw0 : J (emit (ConsoleLoading d) w)) by now apply J_emit.
  unfold try_catch.
  eapply ensures_catch with (Q1 := fun _ w => J w).
  - apply ensures_of_upholds. now apply upholds_loadDistrict_try.
  - intros [] w1 Hw1. now split.
  - intros e w1 Hw1. cbn. split; [now apply J_emit|reflexivity].
Qed.

Lemma ensures_load_each (ds : list ShardDescriptor) :
  incl ds (districts idx) ->
  forall w, J w -> ensures J done (load_each ds w).
Proof.
  induction ds as [|d rest IH]; intros Hincl w Hw; cbn [load_each].
  - now split.
  - assert (Hrest : incl rest (districts idx))
      by (intros x Hx; apply Hincl; now right).
    unfold bind at 1, read at 1. cbn [bind_step].
    eapply ensures_bind with (Q1 := done).
    + destruct (resident w (code d)); cbn [negb]; [now split|].
      eapply ensures_bind with (Q1 := done).
      * apply ensures_loadDistrict; [|exact Hw].
        apply in_map, Hincl. now left.
      * intros _ w1 [Hw1 _]. unfold bind at 1, read at 1. cbn [bind_step].
        unfold index_length, bind at 1 2, read at 1. cbn [bind_step].
        destruct Hw1 as [Hf1 Hs1]. pose proof Hs1 as (Hi1 & _).
        rewrite Hi1. cbn.
        assert (HJ : J (emit (Progress
                                (StringSet.size
                                   (loadedDistricts (districtState w1)))
                                (length (districts idx))) w1))
          by (apply (J_progress idx); now split).
        split; [now apply J_emit|]. intros [] w2 Hw2. now split.
      * intros e w1 [_ He]. discriminate He.
    + intros _ w1 [Hw1 _]. now apply IH.
    + intros e w1 [_ He]. discriminate He.
Qed.

Lemma ensures_loadVisibleDistricts (w : World) :
  at_rest idx w -> ensures J (fulfilled idx) (loadVisibleDistricts w).
Proof.
  intros [Hs Hflag].
  unfold loadVisibleDistricts, bind at 1, read at 1. cbn [bind_step].
  rewrite Hflag. unfold bind at 1, modify at 1. cbn [bind_step].
  unfold bind at 1, read at 1. cbn [bind_step].
  set (w1 := with_state (set_loading true) w).
  assert (Hw1 : J w1) by (split; [reflexivity|exact Hs]).
  eapply ensures_bind with (Q1 := done).
  - apply ensures_load_each; [|exact Hw1].
    rewrite (getVisibleDistricts_index w1 idx) by apply Hs.
    apply incl_refl.
  - intros _ w2 [[_ Hs2] _]. cbn. split; [|reflexivity]. split; [exact Hs2|].
    reflexivity.
  - intros e w2 [_ He]. discriminate He.
Qed.

Lemma page_live_after (x : Step unit) :
  ensures J (fulfilled idx) x -> page_live idx (after x []).
Proof.
  destruct x as [r w | wt w k]; cbn; intros H.
  - left. split; [reflexivity|apply H].
  - destruct H as [[Hf Hs] Hk]. right. split; [exact Hf|]. split; [exact Hs|].
    eexists. split; [reflexivity|]. exact Hk.
Qed.

Lemma page_live_turn (p q : Page) :
  page_live idx p -> turn p q -> page_live idx q.
Proof.
  intros Hp Hturn.
  destruct Hturn as [p b z | p | p before t later r Hc].
  - destruct Hp as [(Hnone & Hr) | (Hw & Hs & t & Hc & Hk)].
    + left. split; [exact Hnone|exact Hr].
    + right. split; [exact Hw|]. split; [exact Hs|]. now exists t.
  - destruct Hp as [(Hnone & Hr) | (Hw & Hs & t & Hc & Hk)].
    + rewrite Hnone. now apply page_live_after, ensures_loadVisibleDistricts.
    + rewrite (guarded_call (world p) Hw). cbn.
      right. split; [exact Hw|]. split; [exact Hs|]. now exists t.
  - destruct Hp as [(Hnone & Hr) | (Hw & Hs & t0 & Hc0 & Hk)].
    + rewrite Hnone in Hc. now destruct before.
    + rewrite Hc0 in Hc. destruct before as [|t1 before].
      * injection Hc as <- <-. cbn [app]. apply page_live_after.
        apply Hk. now split.
      * injection Hc as _ Hc. now destruct before.
Qed.

Lemma page_live_reachable (b : Bounds) (z : float) (p : Page) :
  reachable (initial_page idx b z) p -> page_live idx p.
Proof.
  intros Hreach. induction Hreach as [|p q _ IH Hturn].
  - left. split; [reflexivity|]. split; [|reflexivity].
    split; [reflexivity|]. split; [constructor|].
    split; [intros c []|intros n m []].
  - exact (page_live_turn p q IH Hturn).
Qed.

End Live.

(** X16. With a catalog of the shape [split-by-district.py] writes (what
    [Catalog] holds: a list of entries, each with its code), the flag is
    never left up.  On every page the event loop can reach from the page
    [initialize] leaves, the flag [isLoading] is up exactly while a load
    cycle is in progress: whatever the host answers, whatever the library
    throws and whenever the map is moved, no exception leaves a load cycle
    before it has put the flag down, so that a later move of the map can
    start a new cycle.  The reads of the catalog in [loadVisibleDistricts]
    stand outside any [try]; the statement says nothing of a catalog of
    another shape. *)
Theorem flag_is_up_exactly_during_a_cycle :
  forall (idx : Catalog) (b : Bounds) (z : float) (p : Page),
    reachable (initial_page idx b z) p ->
    (isLoading (districtState (world p)) = true <-> cycles p <> []).
Proof.
  intros idx b z p Hreach.
  destruct (page_live_reachable idx b z p Hreach)
    as [(Hnone & _ & Hflag) | (Hw & _ & t & Hc & _)].
  - rewrite Hnone, Hflag. split; [discriminate|now intros []].
  - rewrite Hc. split; [discriminate|intros _; exact Hw].
Qed.

(** ** More on the ingestion of a shard *)

(** X17. The first flush is one feature longer than the others: when a
    collection has more than 500 features and none raises, the first
    batch handed to the rendering layer holds the render points of the
    first 501 features, those at indices 0 to 500. *)
Theorem first_batch_covers_501_features :
  forall (host : Host) (d : ShardDescriptor) (w : World)
         (data : FeatureCollection),
    resident w (code d) = false ->
    shard_outcome host d w = Normal data ->
    existsb raises (features data) = false ->
    500 < length (features data) ->
    exists new,
      history (snd (run host (loadDistrict d w))) = history w ++ new
      /\ nth_error (flushes new) 0
         = Some (markers_of (firstn 501 (features data))).
Proof.
  intros host d w data Hres Hout Hr Hlen.
  destruct (loadDistrict_success host d w data Hres Hout Hr)
    as (es & remaining & Hi & _ & ->).
  exists (loaded_events d data es remaining). split; [reflexivity|].
  assert (Hpos : 0 < chunkSize) by (unfold chunkSize; lia).
  pose proof (ingest_events_first_batch chunkSize (features data)
                Hpos Hlen Hr) as Hb.
  rewrite Hi in Hb. cbn [fst] in Hb.
  rewrite flushes_loaded_events, nth_error_app1; [exact Hb|].
  apply nth_error_Some. rewrite Hb. discriminate.
Qed.






(** X19. The shards are loaded independently of one another: in a load
    cycle, a shard of the catalog whose collection the host serves, with
    no feature that raises, is resident when the cycle ends, whatever
    happens to the other shards; so a shard that failed in one cycle is
    loaded by a later one as soon as the host serves it. *)
Theorem served_shard_is_loaded_whatever_the_others :
  forall (host : Host) (w : World) (idx : Catalog) (d : ShardDescriptor),
    index (districtState w) = Some idx ->
    isLoading (districtState w) = false ->
    In d (districts idx) ->
    (forall d' w0, In d' (districts idx) -> code d' = code d ->
       exists data, shard_outcome host d' w0 = Normal data
                    /\ existsb raises (features data) = false) ->
    resident (snd (run host (loadVisibleDistricts w))) (code d) = true.
Proof.
  intros host w idx d Hidx Hflag Hin Hserve.
  rewrite run_loadVisibleDistricts. cbn [snd]. unfold cycle_result.
  rewrite Hflag, Hidx.
  set (w1 := with_state (set_loading true) w).
  rewrite (getVisibleDistricts_index w1 idx) by exact Hidx.
  apply (load_each_result_served host (length (districts idx)) (code d)
           (districts idx) Hserve).
  now exists d.
Qed.

End Properties.

(** * Instances *)

(** In the examples, the counterexamples and the instances of the theorems
    the library is [plain_leaflet]. *)
#[local] Existing Instance plain_leaflet.

Lemma marker_position_swaps_coordinates_witness :
  exists lng lat,
    destructure2 (coordinates_of madrid_tree) = Normal (lng, lat)
    /\ latlng {| latlng := (Number 40.41%float, Number (-3.70)%float);
                 props := Object [] |} = (lat, lng)
    /\ forall x y more,
         coordinates_of madrid_tree = Array (x :: y :: more) -> lng = x /\ lat = y.
Proof.
  apply (marker_position_swaps_coordinates madrid_tree). reflexivity.
Defined.

Lemma ingestion_adds_each_located_feature_once_witness :
  let data := {| features := [plane_tree; no_geometry; tree_with_altitude] |} in
  let host := serve (retiro_site (features data)) in
  (forall f, In f (features data) ->
             (makes_point f = true <-> has_coordinates f = true))
  /\ exists new,
       history (snd (run host (loadDistrict retiro start))) = history start ++ new
       /\ points new = markers_of (features data)
       /\ length (points new)
          = length (features data)
            - length (filter (fun f => negb (has_coordinates f)) (features data))
       /\ filter is_error new = []
       /\ resident (snd (run host (loadDistrict retiro start))) (code retiro)
          = true.
Proof.
  apply (ingestion_adds_each_located_feature_once
           (serve (retiro_site [plane_tree; no_geometry; tree_with_altitude]))
           retiro start
           {| features := [plane_tree; no_geometry; tree_with_altitude] |});
    reflexivity.
Defined.

(** C1 as stated fails.  A position with an altitude is not a pair, yet
    its feature yields a render point.  And coordinates that are not a list
    are not skipped in silence: of three features the second has the
    number 7 for coordinates; its conversion raises, the shard is abandoned
    with an error on the console, and the render point buffered for the
    first feature is never handed over, so that no point is added where
    the count of the well-formed features is two. *)
Lemma ingestion_counterexample :
  ~ (forall f, makes_point f = true <-> has_coordinate_pair f = true)
  /\ ~ (forall (host : Host) (d : ShardDescriptor) (w : World)
               (data : FeatureCollection),
          resident w (code d) = false ->
          shard_outcome host d w = Normal data ->
          length (points (history (snd (run host (loadDistrict d w)))))
          = length (points (history w))
            + (length (features data)
               - length (filter (fun f => negb (has_coordinate_pair f))
                                (features data))))
  /\ (let feats := [plane_tree; scalar_coordinates; plane_tree] in
      let w' := snd (run (serve (retiro_site feats)) (loadDistrict retiro start)) in
      points (history w') = []
      /\ resident w' "03" = false
      /\ In (ConsoleError "03" TypeError) (history w')).
Proof.
  split; [|split].
  - intros H. destruct (H tree_with_altitude) as [H1 _].
    specialize (H1 eq_refl). discriminate H1.
  - intros H.
    specialize (H (serve (retiro_site [plane_tree; scalar_coordinates; plane_tree]))
                  retiro start
                  {| features := [plane_tree; scalar_coordinates; plane_tree] |}
                  eq_refl eq_refl).
    vm_compute in H. discriminate H.
  - vm_compute. repeat split; auto.
Qed.

Lemma resident_only_after_full_handover_witness :
  let host := serve (retiro_site [plane_tree; no_geometry; plane_tree]) in
  let w' := snd (run host (loadDistrict retiro start)) in
  (resident w' "03" = true ->
   exists data before,
     shard_outcome host retiro start = Normal data
     /\ existsb raises (features data) = false
     /\ history w'
        = history start ++ before
          ++ [MarkLoaded "03"; ConsoleLoaded "03" (length (features data))]
     /\ points before = markers_of (features data)
     /\ ~ In (MarkLoaded "03") before)
  /\ (forall e, shard_outcome host retiro start = Abrupt e ->
                resident w' "03" = false
                /\ districtState w' = districtState start)
  /\ (forall data, shard_outcome host retiro start = Normal data ->
                   existsb raises (features data) = true ->
                   resident w' "03" = false).
Proof.
  apply (resident_only_after_full_handover
           (serve (retiro_site [plane_tree; no_geometry; plane_tree]))
           retiro start).
  reflexivity.
Defined.

Lemma ingestion_yields_witness :
  let data := {| features := repeat plane_tree 600 ++ no_geometry
                             :: repeat plane_tree 400 |} in
  let host := serve (retiro_site (features data)) in
  exists new,
    history (snd (run host (loadDistrict retiro start))) = history start ++ new
    /\ yields new = (length (features data) - 1) / 500
    /\ yields new <= length (flushes new) <= S (yields new).
Proof.
  apply (ingestion_yields
           (serve (retiro_site (repeat plane_tree 600 ++ no_geometry
                                :: repeat plane_tree 400)))
           retiro start
           {| features := repeat plane_tree 600 ++ no_geometry
                          :: repeat plane_tree 400 |}).
  - reflexivity.
  - reflexivity.
  - vm_compute. reflexivity.
Defined.

(** C6 as stated fails: of 501 features only the first has coordinates, so
    [N = 1] and the formula gives no yield, but the loop yields once, at
    index 500. *)
Lemma ingestion_yields_counterexample :
  ~ (forall (host : Host) (d : ShardDescriptor) (w : World)
            (data : FeatureCollection),
       resident w (code d) = false ->
       shard_outcome host d w = Normal data ->
       yields (history (snd (run host (loadDistrict d w))))
       = yields (history w) + (length (markers_of (features data)) - 1) / 500)
  /\ (let feats := plane_tree :: repeat no_geometry 500 in
      let w' := snd (run (serve (retiro_site feats)) (loadDistrict retiro start)) in
      length (markers_of feats) = 1
      /\ resident w' "03" = true
      /\ yields (history w') = 1).
Proof.
  split.
  - intros H.
    specialize (H (serve (retiro_site (plane_tree :: repeat no_geometry 500)))
                  retiro start
                  {| features := plane_tree :: repeat no_geometry 500 |}
                  eq_refl eq_refl).
    vm_compute in H. discriminate H.
  - vm_compute. repeat split.
Qed.

Lemma full_batches_witness :
  let data := {| features := repeat plane_tree 600 ++ no_geometry
                             :: repeat plane_tree 401 |} in
  let host := serve (retiro_site (features data)) in
  let source := firstn 500 (skipn (500 * 1 + 1) (features data)) in
  exists new,
    history (snd (run host (loadDistrict retiro start))) = history start ++ new
    /\ nth_error (flushes new) 1 = Some (markers_of source)
    /\ length source = 500
    /\ length (markers_of source) <= 500
    /\ (forallb has_coordinates source = true ->
        length (markers_of source) = 500).
Proof.
  apply (full_batches
           (serve (retiro_site (repeat plane_tree 600 ++ no_geometry
                                :: repeat plane_tree 401)))
           retiro start
           {| features := repeat plane_tree 600 ++ no_geometry
                          :: repeat plane_tree 401 |} 1).
  - reflexivity.
  - reflexivity.
  - vm_compute. reflexivity.
  - lia.
  - vm_compute. lia.
Defined.

(** C7 as stated fails: of 1002 features all but the one at index 600 have
    coordinates; the first flush, at index 500, hands over the 501 points
    buffered from index 0 on, and the second, at index 1000, hands over
    499; the point left is flushed at the end. *)
Lemma full_batches_counterexample :
  ~ (forall (host : Host) (d : ShardDescriptor) (w : World)
            (data : FeatureCollection) (new : list Event)
            (k : nat) (batch : list Marker),
       resident w (code d) = false ->
       shard_outcome host d w = Normal data ->
       history (snd (run host (loadDistrict d w))) = history w ++ new ->
       nth_error (flushes new) k = Some batch ->
       S k < length (flushes new) ->
       length batch = 500)
  /\ (let feats := repeat plane_tree 600 ++ no_geometry :: repeat plane_tree 401 in
      let w' := snd (run (serve (retiro_site feats)) (loadDistrict retiro start)) in
      map (@length Marker) (flushes (history w')) = [501; 499; 1]).
Proof.
  split.
  - intros H.
    pose (feats := repeat plane_tree 600 ++ no_geometry :: repeat plane_tree 401).
    pose (w' := snd (run (serve (retiro_site feats)) (loadDistrict retiro start))).
    specialize (H (serve (retiro_site feats)) retiro start
                  {| features := feats |} (history w') 1
                  (nth 1 (flushes (history w')) [])
                  eq_refl eq_refl eq_refl).
    assert (Hlen : length (nth 1 (flushes (history w')) []) = 499)
      by (vm_compute; reflexivity).
    rewrite H in Hlen.
    + discriminate Hlen.
    + vm_compute. reflexivity.
    + vm_compute. lia.
  - vm_compute. reflexivity.
Qed.


(** Scenario B of the specification: the first shard answers 500; after
    one load cycle the second shard alone is resident, the progress
    reports read 0 of 2 and then 1 of 2, and both shards were asked for. *)
Example one_shard_down :
  let w' := snd (run (serve centro_down) (loadVisibleDistricts start)) in
  fst (run (serve centro_down) (loadVisibleDistricts start)) = Normal tt
  /\ loadedDistricts (districtState w') = ["03"]
  /\ isLoading (districtState w') = false
  /\ fetched (history w') = [centro; retiro]
  /\ filter (fun e => match e with Progress _ _ => true | _ => false end)
            (history w')
     = [Progress 0 2; Progress 1 2]
  /\ length (points (history w')) = 5
  /\ In (ConsoleError "01" (HttpError 500)) (history w').
Proof.
  vm_compute. repeat split; auto 10.
Qed.

(** Scenario A of the specification: two shards of three and five trees;
    both end up resident, eight points are rendered and the last progress
    report reads 2 of 2. *)
Example two_shards_loaded :
  let site := fun u =>
    if String.eqb u "./data/districts/district_01.json"
    then (200%Z, Some {| features := repeat plane_tree 3 |})
    else (200%Z, Some {| features := repeat plane_tree 5 |}) in
  let w' := snd (run (serve site) (loadVisibleDistricts start)) in
  loadedDistricts (districtState w') = ["01"; "03"]
  /\ length (points (history w')) = 8
  /\ filter (fun e => match e with Progress _ _ => true | _ => false end)
            (history w')
     = [Progress 1 2; Progress 2 2].
Proof.
  vm_compute. repeat split.
Qed.

Lemma resident_shards_are_not_requested_witness :
  let host := serve centro_down in
  let w := snd (run host (loadVisibleDistricts start)) in
  let w1 := snd (run host (loadDistrict retiro start)) in
  (exists new,
     history (snd (run host (loadVisibleDistricts w))) = history w ++ new
     /\ forall d', In d' (fetched new) -> code d' <> code retiro)
  /\ loadDistrict retiro w = Done (Normal tt) w
  /\ (let w2 := snd (run host (loadDistrict retiro w1)) in
      w2 = w1
      /\ length (points (history w2)) = length (points (history w1))).
Proof.
  apply (resident_shards_are_not_requested
           (serve centro_down) (serve centro_down) (serve centro_down)
           (snd (run (serve centro_down) (loadVisibleDistricts start)))
           start retiro);
    vm_compute; reflexivity.
Defined.

Lemma reentrant_call_is_a_no_op_witness :
  let p0 := initial_page two_districts madrid 12%float in
  let p := after (loadVisibleDistricts (world p0)) (cycles p0) in
  (flag_up (world p) ->
   loadVisibleDistricts (world p) = Done (Normal tt) (world p))
  /\ length (cycles p) <= 1
  /\ (cycles p <> [] ->
      flag_up (world p)
      /\ after (loadVisibleDistricts (world p)) (cycles p) = p).
Proof.
  apply (reentrant_call_is_a_no_op (initial_page two_districts madrid 12%float)).
  - reflexivity.
  - eapply reach_turn; [apply reach_start | apply turn_call].
Defined.

(** Scenario C of the specification: a feature with nothing but its
    position resolves every attribute to its default. *)
Example defaults_without_attributes :
  forall (nts : float -> string) (m : Marker),
    convert_feature madrid_tree = Made m ->
    latlng m = (Number 40.41%float, Number (-3.70)%float)
    /\ tree_info nts (props m)
       = {| species := Str "Especie desconocida";
            commonName := Str "";
            diameter := Str "N/A";
            height := Str "N/A";
            district := Str "";
            neighborhood := Str "" |}.
Proof.
  intros nts m [= <-]. split; reflexivity.
Qed.

Lemma cycle_requests_missing_shards_in_order_witness :
  exists new,
    history (snd (run (serve centro_down) (loadVisibleDistricts start)))
    = history start ++ new
    /\ fetched new = missing start (districts two_districts)
    /\ length (filter is_progress new)
       = length (missing start (districts two_districts)).
Proof.
  apply (cycle_requests_missing_shards_in_order (serve centro_down) start
           two_districts).
  - reflexivity.
  - reflexivity.
  - repeat constructor; simpl; intuition discriminate.
Defined.

Lemma nothing_to_load_returns_at_once_witness :
  let w := snd (run (serve (fun _ => (200%Z, Some {| features := [plane_tree] |})))
                    (loadVisibleDistricts start)) in
  loadVisibleDistricts w = Done (Normal tt) w.
Proof.
  apply nothing_to_load_returns_at_once.
  - reflexivity.
  - vm_compute. intros d [<-|[<-|[]]]; reflexivity.
Defined.

Lemma served_catalog_is_loaded_in_one_cycle_witness :
  let host := serve (fun _ => (200%Z, Some {| features := [plane_tree] |})) in
  let w' := snd (run host (loadVisibleDistricts start)) in
  (forall d, In d (districts two_districts) -> resident w' (code d) = true)
  /\ (exists new, history w' = history start ++ new /\ filter is_error new = [])
  /\ loadVisibleDistricts w' = Done (Normal tt) w'.
Proof.
  apply (served_catalog_is_loaded_in_one_cycle
           (serve (fun _ => (200%Z, Some {| features := [plane_tree] |})))
           start two_districts).
  - reflexivity.
  - reflexivity.
  - intros d w _. exists {| features := [plane_tree] |}. split; reflexivity.
Defined.

Lemma only_catalog_shards_become_resident_witness :
  let p := Nat.iter 12 (host_turn (serve centro_down))
                    (initial_page two_districts madrid 12%float) in
  index (districtState (world p)) = Some two_districts
  /\ forall c, resident (world p) c = true ->
               exists d, In d (districts two_districts) /\ code d = c.
Proof.
  apply (only_catalog_shards_become_resident two_districts madrid 12%float
           (Nat.iter 12 (host_turn (serve centro_down))
                     (initial_page two_districts madrid 12%float))).
  apply host_turns_reachable.
Defined.

Lemma progress_never_exceeds_total_witness :
  1 <= 2 /\ 2 = length (districts two_districts).
Proof.
  apply (progress_never_exceeds_total two_districts madrid 12%float
           (Nat.iter 12 (host_turn (serve centro_down))
                     (initial_page two_districts madrid 12%float)) 1 2).
  - apply host_turns_reachable.
  - vm_compute. auto 20.
Defined.

Lemma index_failure_is_final_witness :
  let s := moved madrid 14 (initialize true server_error madrid 12) in
  running s = []
  /\ listening s = false
  /\ districtState (sworld s) = districtState (fresh_world madrid 12)
  /\ history (sworld s) = []
  /\ ui s = [MarkersAdded; LoadingText "Cargando árboles...";
             ProgressText "Preparando datos...";
             IndexFetch index_url; ConsoleIndexError (HttpError 500);
             OverlayHidden;
             ErrorShown "No se pudo cargar el índice de distritos";
             SetTimeout
               (RemoveError "No se pudo cargar el índice de distritos") 5000;
             OverlayHidden;
             ErrorShown "No se pudo inicializar el mapa";
             SetTimeout (RemoveError "No se pudo inicializar el mapa") 5000;
             SetTimeout HideOverlay 500].
Proof.
  apply (index_failure_is_final true server_error madrid 12 (HttpError 500)
           (moved madrid 14 (initialize true server_error madrid 12))).
  - reflexivity.
  - eapply session_next; [apply session_start|apply session_move].
Defined.

Lemma session_follows_the_event_loop_witness :
  let s := moved madrid 14 (initialize true (index_served two_districts) madrid 12) in
  reachable (initial_page two_districts madrid 12) (page_of s)
  /\ listening s = true
  /\ length (running s) <= 1
  /\ index (districtState (sworld s)) = Some two_districts
  /\ incl (loadedDistricts (districtState (sworld s))) (codes two_districts).
Proof.
  apply (session_follows_the_event_loop true (index_served two_districts)
           madrid 12 two_districts
           (moved madrid 14
              (initialize true (index_served two_districts) madrid 12))).
  - reflexivity.
  - eapply session_next; [apply session_start|apply session_move].
Defined.

Lemma overlay_is_hidden_once_after_the_first_cycle_witness :
  let s := moved madrid 14 (initialize true (index_served two_districts) madrid 12) in
  length (first_cycles s) + length (filter is_overlay_timer (ui s)) <= 1
  /\ filter is_banner (ui s) = [].
Proof.
  apply (overlay_is_hidden_once_after_the_first_cycle true
           (index_served two_districts) madrid 12 two_districts
           (moved madrid 14
              (initialize true (index_served two_districts) madrid 12))).
  - reflexivity.
  - eapply session_next; [apply session_start|apply session_move].
Defined.

Lemma flag_is_up_exactly_during_a_cycle_witness :
  let p := Nat.iter 3 (host_turn (serve centro_down))
                    (initial_page two_districts madrid 12) in
  isLoading (districtState (world p)) = true <-> cycles p <> [].
Proof.
  apply (flag_is_up_exactly_during_a_cycle two_districts madrid 12).
  apply host_turns_reachable.
Defined.

Lemma first_batch_covers_501_features_witness :
  let data := {| features := repeat plane_tree 502 |} in
  let host := serve (retiro_site (features data)) in
  exists new,
    history (snd (run host (loadDistrict retiro start))) = history start ++ new
    /\ nth_error (flushes new) 0
       = Some (markers_of (firstn 501 (features data))).
Proof.
  apply (first_batch_covers_501_features
           (serve (retiro_site (repeat plane_tree 502))) retiro start
           {| features := repeat plane_tree 502 |}).
  - reflexivity.
  - reflexivity.
  - vm_compute. reflexivity.
  - vm_compute. lia.
Defined.


Lemma served_shard_is_loaded_whatever_the_others_witness :
  resident (snd (run (serve centro_down) (loadVisibleDistricts start)))
           (code retiro) = true.
Proof.
  apply (served_shard_is_loaded_whatever_the_others (serve centro_down) start
           two_districts retiro).
  - reflexivity.
  - reflexivity.
  - simpl. auto.
  - intros d' w0 [<-|[<-|[]]] Hc; [discriminate Hc|].
    exists {| features := repeat plane_tree 5 |}. split; reflexivity.
Defined.

Lemma index_without_count_is_a_failure_witness :
  let s := moved madrid 14
             (initialize true (index_served two_districts_uncounted) madrid 12) in
  running s = []
  /\ listening s = false
  /\ districtState (sworld s)
     = set_index two_districts_uncounted (districtState (fresh_world madrid 12))
  /\ history (sworld s) = []
  /\ ui s = [MarkersAdded; LoadingText "Cargando árboles...";
             ProgressText "Preparando datos...";
             IndexFetch index_url; ConsoleIndexError TypeError;
             OverlayHidden;
             ErrorShown "No se pudo cargar el índice de distritos";
             SetTimeout
               (RemoveError "No se pudo cargar el índice de distritos") 5000;
             OverlayHidden;
             ErrorShown "No se pudo inicializar el mapa";
             SetTimeout (RemoveError "No se pudo inicializar el mapa") 5000;
             SetTimeout HideOverlay 500].
Proof.
  apply (index_without_count_is_a_failure true
           (index_served two_districts_uncounted) madrid 12
           two_districts_uncounted
           (moved madrid 14
              (initialize true (index_served two_districts_uncounted)
                 madrid 12))).
  - reflexivity.
  - reflexivity.
  - eapply session_next; [apply session_start|apply session_move].
Defined.

(** An empty list of coordinates passes the guard.  The position it gives,
    [undefined] twice, is one [L.circleMarker] throws on: the shard is
    abandoned with an error on the console, and the render point buffered
    for the feature before is never handed over. *)
Example empty_coordinates_abandon_the_shard :
  let feats := [plane_tree; empty_coordinates; plane_tree] in
  let w' := snd (run (serve (retiro_site feats)) (loadDistrict retiro start)) in
  has_coordinates empty_coordinates = true
  /\ conversion_raises empty_coordinates = true
  /\ points (history w') = []
  /\ resident w' "03" = false
  /\ exists message, In (ConsoleError "03" (Thrown message)) (history w').
Proof.
  vm_compute. repeat split; eauto.
Qed.

(** A marker the cluster group throws on is found out at the flush: the
    three features are converted and their markers handed over as one
    batch, then the shard is abandoned with an error on the console. *)
Example refused_marker_abandons_the_shard :
  let feats := [plane_tree; null_latitude; plane_tree] in
  let w' := snd (run (serve (retiro_site feats))
                     (loadDistrict (L := picky_cluster) retiro start)) in
  existsb (conversion_raises (L := picky_cluster)) feats = false
  /\ raises (L := picky_cluster) null_latitude = true
  /\ flushes (history w') = [markers_of (L := picky_cluster) feats]
  /\ resident w' "03" = false
  /\ In (ConsoleError "03" TypeError) (history w').
Proof.
  vm_compute. repeat split; auto.
Qed.
